(** * sql_executor: a shallow embedding of the execution orchestrator

    The development follows [sql_executor.py]: the natural ordering of
    the discovered scripts, the connection helpers, the three
    transaction-mode workflows, the orchestrator with its report step,
    and the entry point.

    The database driver (psycopg2), the clock and the filesystem are the
    program's environment.  The driver is an interface ([Driver]) over an
    abstract world; every theorem holds for each of its instances.  The
    filesystem is a snapshot that stays the same for the whole run. *)

From stdpp Require Import base list strings gmap sorting.
From Stdlib Require Import ZArith Ascii String.

Open Scope string_scope.
Open Scope list_scope.
Open Scope Z_scope.

(** ** Paths *)

(** A [pathlib.Path] is identified with its POSIX string, so that
    [p.as_posix()] is the identity. *)
Definition path := string.

Definition as_posix (p : path) : string := p.

(** ** Natural ordering *)

Module Natsort.

(** Lexicographic comparison of sequences, the way Python compares
    tuples and strings: the first differing position decides, and a
    proper prefix is smaller. *)
Fixpoint lex {A : Type} (cmp : A → A → comparison) (l1 l2 : list A)
    : comparison :=
  match l1, l2 with
  | [], [] => Eq
  | [], _ :: _ => Lt
  | _ :: _, [] => Gt
  | x :: l1', y :: l2' =>
      match cmp x y with
      | Eq => lex cmp l1' l2'
      | c => c
      end
  end.

(** Code point of a character, and comparison of two strings by code
    points ([str.__lt__]). *)
Definition code (a : ascii) : N := N_of_ascii a.

Definition codes (s : string) : list N := code <$> list_ascii_of_string s.

Definition str_compare (s t : string) : comparison :=
  lex N.compare (codes s) (codes t).

(** Modelled from the spec: [natsorted] belongs to the third-party
    natsort package, which is imported by [sql_executor.py] and is not
    part of the sources.  Following the Natural Sorter contract, a
    string is cut into maximal runs of decimal digits and runs of other
    characters; a digit run stands for its numeric value and any other
    run for its text; a key that would begin with a number is given an
    empty text in front, so that texts and numbers alternate.  Keys are
    compared position by position like tuples, and the sort is stable. *)
Inductive chunk : Type :=
  | Text (s : string)
  | Num (n : N).

Definition is_digit (a : ascii) : bool :=
  (48 <=? code a)%N && (code a <=? 57)%N.

(** Maximal runs, each tagged with whether it is a digit run. *)
Fixpoint runs (s : string) : list (bool * string) :=
  match s with
  | EmptyString => []
  | String a s' =>
      match runs s' with
      | (d, t) :: rest =>
          if Bool.eqb d (is_digit a) then (d, String a t) :: rest
          else (is_digit a, String a "") :: (d, t) :: rest
      | [] => [(is_digit a, String a "")]
      end
  end.

(** [int(t)] for a run of decimal digits. *)
Definition int_of_digits (t : string) : N :=
  foldl (λ acc a, acc * 10 + (code a - 48))%N 0%N (list_ascii_of_string t).

Definition chunk_of_run (r : bool * string) : chunk :=
  if r.1 then Num (int_of_digits r.2) else Text r.2.

Definition natsort_key (s : string) : list chunk :=
  match chunk_of_run <$> runs s with
  | Num n :: rest => Text "" :: Num n :: rest
  | k => k
  end.

(** Texts compare by code points and numbers by value.  Texts and
    numbers never meet at the same position of two keys; the two mixed
    cases are there to make the comparison a function. *)
Definition chunk_compare (c1 c2 : chunk) : comparison :=
  match c1, c2 with
  | Text s, Text t => str_compare s t
  | Num m, Num n => N.compare m n
  | Text _, Num _ => Lt
  | Num _, Text _ => Gt
  end.

Definition key_compare (k1 k2 : list chunk) : comparison :=
  lex chunk_compare k1 k2.

(** [a] may stand before [b]. *)
Definition natural_leb (a b : string) : bool :=
  match key_compare (natsort_key a) (natsort_key b) with
  | Gt => false
  | _ => true
  end.

(** Stable insertion: [x] comes from further left in the input than
    everything already in [l], so it goes before its equals. *)
Fixpoint insert_sorted (x : string) (l : list string) : list string :=
  match l with
  | [] => [x]
  | y :: l' => if natural_leb x y then x :: y :: l' else y :: insert_sorted x l'
  end.

Definition natsorted (l : list string) : list string :=
  foldr insert_sorted [] l.

End Natsort.

Import Natsort.

(** ** Exceptions *)

(** The exception classes the program tells apart in its [except]
    clauses.  [OperationalError] is the psycopg2 class of that name,
    [DatabaseError] stands for every other subclass of [psycopg2.Error],
    and [OtherException] for every remaining subclass of [Exception]
    (an [AttributeError], for one). *)
Inductive exn : Type :=
  | OSError
  | UnicodeDecodeError
  | OperationalError
  | DatabaseError
  | OtherException.

Global Instance exn_eq_dec : EqDecision exn.
Proof. solve_decision. Defined.

(** [isinstance(e, psycopg2.OperationalError)] *)
Definition is_OperationalError (e : exn) : bool :=
  match e with OperationalError => true | _ => false end.

(** [isinstance(e, psycopg2.Error)] *)
Definition is_psycopg2_Error (e : exn) : bool :=
  match e with OperationalError | DatabaseError => true | _ => false end.

(** [isinstance(e, (OSError, UnicodeDecodeError))] *)
Definition is_file_error (e : exn) : bool :=
  match e with OSError | UnicodeDecodeError => true | _ => false end.

(** ** The environment *)

(** Connection and cursor objects are known by their identity. *)
Definition conn_id := nat.
Definition cursor_id := nat.

Record db_params : Type := {
  dbname : string;
  user : string;
  password : string;
  host : string;
  port : string;
}.

(** What a call into the environment gives back: a value or a raised
    exception, and the world after the call. *)
Definition reply (W A : Type) : Type := (exn + A) * W.

(** The calls the program makes into psycopg2 and [time].  The
    attributes [closed] are plain reads; [get_transaction_status] reads
    too, but may raise. *)
Class Driver (W : Type) : Type := {
  psycopg2_connect : db_params → W → reply W conn_id;
  time_sleep : Z → W → W;
  conn_closed : conn_id → W → bool;
  conn_cursor : conn_id → W → reply W cursor_id;
  conn_commit : conn_id → W → reply W unit;
  conn_rollback : conn_id → W → reply W unit;
  conn_get_transaction_status : conn_id → W → exn + Z;
  conn_close : conn_id → W → reply W unit;
  cursor_closed : cursor_id → W → bool;
  cursor_close : cursor_id → W → reply W unit;
  cursor_execute : cursor_id → string → W → reply W unit;
}.

(** [psycopg2.extensions.TRANSACTION_STATUS_INTRANS], the value libpq
    gives to a connection inside a transaction block; 3 is a failed
    transaction block. *)
Definition TRANSACTION_STATUS_INTRANS : Z := 2.

(** The filesystem as the run sees it.  [os_walk] lists, for every
    directory reached (links followed), the directory and the names of
    its non-directory entries. *)
Record filesystem : Type := {
  is_dir : path → exn + bool;
  os_walk : path → list (path * list string);
  is_file : path → exn + bool;
  read_text : path → exn + string;
}.

(** [current_dir / filename] *)
Definition joinpath (root : path) (filename : string) : path :=
  root +:+ "/" +:+ filename.

(** [str.endswith] *)
Definition endswith (s ext : string) : bool :=
  let n := String.length s in
  let m := String.length ext in
  (m <=? n)%nat && String.eqb (substring (n - m) m s) ext.

(** [Path.name]: what follows the last slash. *)
Fixpoint name (p : path) : string :=
  match p with
  | EmptyString => ""
  | String a p' =>
      if existsb (Ascii.eqb "/"%char) (list_ascii_of_string p') then name p'
      else if Ascii.eqb a "/"%char then p' else p
  end.

(** [str.isspace] on the ASCII range. *)
Definition is_space (a : ascii) : bool :=
  let n := code a in
  ((9 <=? n) && (n <=? 13) || (28 <=? n) && (n <=? 32))%N.

(** [not s.strip()] *)
Definition blank (s : string) : bool :=
  forallb is_space (list_ascii_of_string s).

(** ** Observable events *)

Inductive level : Type := INFO | WARNING | ERROR.

(** The lines [_attempt_rollback] writes to the log. *)
Inductive rollback_line : Type :=
  | AttemptingRollback (status : Z)
  | RollbackSuccessful
  | NoTransactionToRollback (status : Z)
  | CannotRollback
  | RollbackFailed (e : exn)
  | UnexpectedRollbackError (e : exn).

(** Calls into the driver and the clock, in the order they are made.
    Of the log only the lines of [_attempt_rollback] are kept, each
    with its context message. *)
Inductive event : Type :=
  | EvConnect (r : exn + conn_id)
  | EvSleep (delay : Z)
  | EvCursor (c : conn_id) (r : exn + cursor_id)
  | EvExecute (k : cursor_id) (script : string) (r : exn + unit)
  | EvCommit (c : conn_id) (r : exn + unit)
  | EvRollback (c : conn_id) (r : exn + unit)
  | EvClose (c : conn_id) (r : exn + unit)
  | EvCursorClose (k : cursor_id) (r : exn + unit)
  | EvLog (lvl : level) (context_msg : string) (line : rollback_line).

(** ** Computations *)

Section Program.
Context {W : Type} `{!Driver W}.

(** The outcome of running a piece of the program from a world: what
    it returned or raised, the world it leaves, and what it did. *)
Record out (A : Type) : Type := Out {
  val : exn + A;
  world : W;
  events : list event;
}.
Global Arguments Out {A} _ _ _.
Global Arguments val {A} _.
Global Arguments world {A} _.
Global Arguments events {A} _.

Definition eff (A : Type) : Type := W → out A.
Local Abbreviation E := eff.

Definition ret {A} (a : A) : E A := λ w, Out (inr a) w [].

Definition raise {A} (e : exn) : E A := λ w, Out (inl e) w [].

Definition bind {A B} (m : E A) (k : A → E B) : E B := λ w,
  let r := m w in
  match val r with
  | inl e => Out (inl e) (world r) (events r)
  | inr a => let r' := k a (world r) in
             Out (val r') (world r') (events r ++ events r')
  end.

(** [try: body except Exception as e: handler(e)] *)
Definition try_except {A} (body : E A) (handler : exn → E A) : E A := λ w,
  let r := body w in
  match val r with
  | inl e => let r' := handler e (world r) in
             Out (val r') (world r') (events r ++ events r')
  | inr a => r
  end.

(** [try: body finally: fin] *)
Definition try_finally {A} (body : E A) (fin : E unit) : E A := λ w,
  let r := body w in
  let r' := fin (world r) in
  Out (match val r' with inl e => inl e | inr _ => val r end)
      (world r') (events r ++ events r').

(** The body of a [try], run to the point where its outcome is known:
    the exception that left it is handed over as a value. *)
Definition outcome_of {A} (body : E A) : E (exn + A) := λ w,
  let r := body w in Out (inr (val r)) (world r) (events r).

Definition emit (ev : event) : E unit := λ w, Out (inr tt) w [ev].

(** A read of the world. *)
Definition look {A} (f : W → A) : E A := λ w, Out (inr (f w)) w [].

(** A read of the world that may raise. *)
Definition ask {A} (f : W → exn + A) : E A := λ w, Out (f w) w [].

(** A value or an exception that does not depend on the world. *)
Definition lift {A} (r : exn + A) : E A := λ w, Out r w [].

(** A call into the driver, noted in the trace with its result. *)
Definition call {A} (f : W → reply W A) (ev : exn + A → event) : E A := λ w,
  let '(r, w') := f w in Out r w' [ev r].

End Program.

Global Arguments out : clear implicits.
Global Arguments eff : clear implicits.

Notation "'let*' x := m 'in' k" := (bind m (λ x, k))
  (at level 10, x name, m at level 100, k at level 200).
Notation "'let*' ' pat := m 'in' k" :=
  (bind m (λ x, match x with pat => k end))
  (at level 10, pat pattern, m at level 100, k at level 200).
Notation "'do*' m 'in' k" := (bind m (λ _, k))
  (at level 10, m at level 100, k at level 200).

(** ** The program *)

(** The result dictionary.  The workflows build one as their local
    variables and return it; the keys they do not use keep the values
    given here. *)
Record results : Type := Results {
  processed : list path;
  file_anomalies : list path;
  errors : list path;
  empty_files : list path;
  fatal_error_occurred : bool;
  failed_all_or_nothing : bool;
  connection : option conn_id;
  cursor : option cursor_id;
  unprocessed_files : list path;
}.

Definition initial_results (conn : option conn_id) : results :=
  Results [] [] [] [] false false conn None [].

Definition append_processed (p : path) (v : results) : results :=
  Results (processed v ++ [p]) (file_anomalies v) (errors v) (empty_files v)
    (fatal_error_occurred v) (failed_all_or_nothing v) (connection v)
    (cursor v) (unprocessed_files v).

Definition append_errors (p : path) (v : results) : results :=
  Results (processed v) (file_anomalies v) (errors v ++ [p]) (empty_files v)
    (fatal_error_occurred v) (failed_all_or_nothing v) (connection v)
    (cursor v) (unprocessed_files v).

Definition append_empty_files (p : path) (v : results) : results :=
  Results (processed v) (file_anomalies v) (errors v) (empty_files v ++ [p])
    (fatal_error_occurred v) (failed_all_or_nothing v) (connection v)
    (cursor v) (unprocessed_files v).

Definition set_fatal_error_occurred (v : results) : results :=
  Results (processed v) (file_anomalies v) (errors v) (empty_files v)
    true (failed_all_or_nothing v) (connection v)
    (cursor v) (unprocessed_files v).

Definition set_failed_all_or_nothing (v : results) : results :=
  Results (processed v) (file_anomalies v) (errors v) (empty_files v)
    (fatal_error_occurred v) true (connection v)
    (cursor v) (unprocessed_files v).

Definition set_connection (conn : option conn_id) (v : results) : results :=
  Results (processed v) (file_anomalies v) (errors v) (empty_files v)
    (fatal_error_occurred v) (failed_all_or_nothing v) conn
    (cursor v) (unprocessed_files v).

Definition set_cursor (k : option cursor_id) (v : results) : results :=
  Results (processed v) (file_anomalies v) (errors v) (empty_files v)
    (fatal_error_occurred v) (failed_all_or_nothing v) (connection v)
    k (unprocessed_files v).

(** How an iteration of a loop ends. *)
Inductive flow : Type := Continue | Break.

(** How the statements of a per-file [try] end when nothing is raised:
    at the [continue] for an empty file, or at their last line. *)
Inductive visit : Type := Skipped | Completed.

Section Code.
Context {W : Type} `{!Driver W}.
Variable fs : filesystem.
Local Abbreviation E := (eff W).

(** *** 3. Database connection *)

(** The [for attempt in range(1, attempt_limit + 1)] loop of
    [connect_db], from the iteration [attempt] on, with [todo]
    iterations left. *)
Fixpoint connect_db_from (params : db_params) (attempt_limit delay : Z)
    (attempt : Z) (todo : nat) : E (option conn_id) :=
  match todo with
  | O => ret None
  | S todo' =>
      let* r := outcome_of (call (psycopg2_connect params) EvConnect) in
      match r with
      | inr connection => ret (Some connection)
      | inl e =>
          if is_OperationalError e then
            do* (if attempt <? attempt_limit
                 then call (λ w, (inr tt, time_sleep delay w)) (λ _, EvSleep delay)
                 else ret tt) in
            connect_db_from params attempt_limit delay (attempt + 1) todo'
          else ret None
      end
  end.

Definition connect_db (params : db_params) (attempt_limit delay : Z)
    : E (option conn_id) :=
  connect_db_from params attempt_limit delay 1 (Z.to_nat attempt_limit).

(** *** 4. File retrieval *)

(** One name of one directory of the walk. *)
Definition collect_entry (ext : string) (current_dir : path)
    (found : list path * list path) (filename : string)
    : list path * list path :=
  if endswith filename ext then
    let full_path := joinpath current_dir filename in
    match is_file fs full_path with
    | inr true => (found.1 ++ [full_path], found.2)
    | _ => (found.1, found.2 ++ [full_path])
    end
  else found.

(** [collect_file_paths]: the pair of [files_found] and [anomalies]. *)
Definition collect_file_paths (dir_path : path) (ext : string)
    : list path * list path :=
  foldl (λ found entry, foldl (collect_entry ext entry.1) found entry.2)
        ([], []) (os_walk fs dir_path).

(** *** 5. Helpers *)

Definition _ensure_connection (current_conn : option conn_id)
    (params : db_params) : E (option conn_id) :=
  let* usable :=
    match current_conn with
    | Some c => let* closed := look (conn_closed c) in ret (negb closed)
    | None => ret false
    end in
  if usable then ret current_conn else connect_db params 5 3.

Definition _read_sql_file (sql_file_path : path) : E (option string) :=
  let* sql_script := lift (read_text fs sql_file_path) in
  if blank sql_script then ret None else ret (Some sql_script).

Definition _execute_sql (k : cursor_id) (sql_script : string)
    (sql_file_path : path) : E unit :=
  call (cursor_execute k sql_script) (EvExecute k sql_script).

Definition _attempt_commit (c : conn_id) (sql_file_path : path)
    (mode : string) : E unit :=
  call (conn_commit c) (EvCommit c).

Definition log_rollback (lvl : level) (context_msg : string)
    (line : rollback_line) : E unit :=
  emit (EvLog lvl context_msg line).

Definition _attempt_rollback (conn : option conn_id) (context_msg : string)
    : E unit :=
  try_except
    (let* usable :=
       match conn with
       | Some c => let* closed := look (conn_closed c) in ret (negb closed)
       | None => ret false
       end in
     match conn, usable with
     | Some c, true =>
         let* status := ask (conn_get_transaction_status c) in
         if (status =? TRANSACTION_STATUS_INTRANS) || (status =? 3) then
           do* log_rollback WARNING context_msg (AttemptingRollback status) in
           do* call (conn_rollback c) (EvRollback c) in
           log_rollback INFO context_msg RollbackSuccessful
         else
           log_rollback INFO context_msg (NoTransactionToRollback status)
     | _, _ => log_rollback WARNING context_msg CannotRollback
     end)
    (λ e,
       if is_psycopg2_Error e
       then log_rollback ERROR context_msg (RollbackFailed e)
       else log_rollback ERROR context_msg (UnexpectedRollbackError e)).

(** [if cursor and not cursor.closed: try: cursor.close() except
    Exception: pass], which each per-file loop runs before it opens a
    cursor and in its [finally], and the orchestrator in its own. *)
Definition close_cursor (k : option cursor_id) : E unit :=
  match k with
  | Some k =>
      let* closed := look (cursor_closed k) in
      if closed then ret tt
      else try_except (call (cursor_close k) (EvCursorClose k)) (λ _, ret tt)
  | None => ret tt
  end.

(** *** 6. Mode-specific workflows *)

(** The statements of the [try] of the two per-file loops, which are
    the same but for the mode named in the commit log line.  Given back
    are the local [cursor] as the statements leave it and how they
    ended. *)
Definition per_file_try (c : conn_id) (k : option cursor_id)
    (sql_file_path : path) (mode : string)
    : E (option cursor_id * (exn + visit)) :=
  let* r := outcome_of (_read_sql_file sql_file_path) in
  match r with
  | inl e => ret (k, inl e)
  | inr None => ret (k, inr Skipped)
  | inr (Some sql_script) =>
      do* close_cursor k in
      let* r := outcome_of (call (conn_cursor c) (EvCursor c)) in
      match r with
      | inl e => ret (k, inl e)
      | inr k' =>
          let* r := outcome_of
            (do* _execute_sql k' sql_script sql_file_path in
             do* _attempt_commit c sql_file_path mode in
             ret Completed) in
          ret (Some k', r)
      end
  end.

(** The loop of [_process_per_file] over the files still to visit. *)
Fixpoint per_file_loop (db_params : db_params) (files : list path)
    (v : results) : E results :=
  match files with
  | [] => ret v
  | sql_file_path :: rest =>
      let* conn := _ensure_connection (connection v) db_params in
      match conn with
      | None => ret (set_fatal_error_occurred (set_connection None v))
      | Some c =>
          let v := set_connection conn v in
          let* '(k, r) := per_file_try c (cursor v) sql_file_path "per-file" in
          let v := set_cursor k v in
          let* v :=
            try_finally
              match r with
              | inr Skipped => ret (append_empty_files sql_file_path v)
              | inr Completed => ret (append_processed sql_file_path v)
              | inl e =>
                  let v := append_errors sql_file_path v in
                  if is_file_error e then ret v
                  else if is_psycopg2_Error e then
                    do* _attempt_rollback conn
                          ("error processing " +:+ name sql_file_path) in
                    ret v
                  else
                    do* _attempt_rollback conn
                          ("unexpected error for " +:+ name sql_file_path) in
                    ret v
              end
              (close_cursor k) in
          per_file_loop db_params rest v
      end
  end.

(** The workflows return a dictionary without the key [cursor], the
    all-or-nothing one apart. *)
Definition _process_per_file (conn : option conn_id) (db_params : db_params)
    (sorted_sql_files : list path) : E results :=
  let* v := per_file_loop db_params sorted_sql_files (initial_results conn) in
  ret (set_cursor None v).

(** The loop of [_process_per_file_until_error]. *)
Fixpoint per_file_until_error_loop (db_params : db_params)
    (files : list path) (v : results) : E results :=
  match files with
  | [] => ret v
  | sql_file_path :: rest =>
      let* conn := _ensure_connection (connection v) db_params in
      match conn with
      | None =>
          ret (append_errors sql_file_path
                 (set_fatal_error_occurred (set_connection None v)))
      | Some c =>
          let v := set_connection conn v in
          let* '(k, r) :=
            per_file_try c (cursor v) sql_file_path "per-file-until-error" in
          let v := set_cursor k v in
          let* '(next, v) :=
            try_finally
              match r with
              | inr Skipped => ret (Continue, append_empty_files sql_file_path v)
              | inr Completed => ret (Continue, append_processed sql_file_path v)
              | inl e =>
                  let v := set_fatal_error_occurred
                             (append_errors sql_file_path v) in
                  let what :=
                    if is_file_error e then "file error "
                    else if is_psycopg2_Error e then "DB/commit error "
                    else "unexpected error " in
                  do* _attempt_rollback conn (what +:+ name sql_file_path) in
                  ret (Break, v)
              end
              (close_cursor k) in
          match next with
          | Continue => per_file_until_error_loop db_params rest v
          | Break => ret v
          end
      end
  end.

Definition _process_per_file_until_error (conn : option conn_id)
    (db_params : db_params) (sorted_sql_files : list path) : E results :=
  let* v := per_file_until_error_loop db_params sorted_sql_files
              (initial_results conn) in
  ret (set_cursor None v).

(** The loop of [_process_all_or_nothing]; [k] is the one cursor opened
    before the loop. *)
Fixpoint all_or_nothing_loop (db_params : db_params) (k : cursor_id)
    (files : list path) (v : results) : E results :=
  match files with
  | [] => ret v
  | sql_file_path :: rest =>
      let* conn := _ensure_connection (connection v) db_params in
      match conn with
      | None =>
          let v := append_errors sql_file_path
                     (set_failed_all_or_nothing
                        (set_fatal_error_occurred (set_connection None v))) in
          do* _attempt_rollback None "connection lost mid-transaction" in
          ret v
      | Some c =>
          let v := set_connection conn v in
          let* r := outcome_of
            (let* sql_script := _read_sql_file sql_file_path in
             match sql_script with
             | None => ret Skipped
             | Some sql_script =>
                 do* _execute_sql k sql_script sql_file_path in
                 ret Completed
             end) in
          match r with
          | inr Skipped =>
              all_or_nothing_loop db_params k rest
                (append_empty_files sql_file_path v)
          | inr Completed =>
              all_or_nothing_loop db_params k rest
                (append_processed sql_file_path v)
          | inl e =>
              let v := set_failed_all_or_nothing
                         (set_fatal_error_occurred
                            (append_errors sql_file_path v)) in
              let what :=
                if is_file_error e then "file error "
                else if is_psycopg2_Error e then "DB error "
                else "unexpected error " in
              do* _attempt_rollback conn (what +:+ name sql_file_path) in
              ret v
          end
      end
  end.

(** [conn.cursor()] on [None] is an [AttributeError].  The loop raises
    nothing ([all_or_nothing_loop_returns]), so the outer handler is
    reached from the opening of the cursor only, with the local
    variables as they were set at the top. *)
Definition _process_all_or_nothing (conn : option conn_id)
    (db_params : db_params) (sorted_sql_files : list path) : E results :=
  try_except
    (let* k :=
       match conn with
       | Some c => call (conn_cursor c) (EvCursor c)
       | None => raise OtherException
       end in
     all_or_nothing_loop db_params k sorted_sql_files
       (set_cursor (Some k) (initial_results conn)))
    (λ outer_err,
       do* _attempt_rollback conn "transaction setup error" in
       ret (set_failed_all_or_nothing
              (set_fatal_error_occurred (initial_results conn)))).

(** *** 7. Orchestrator *)

(** What [execute_sql_scripts_in_dir] hands to its caller: one of the
    two booleans, or the result dictionary. *)
Inductive retval : Type :=
  | RetBool (b : bool)
  | RetResults (r : results).

(** What the [finally] block leaves behind: the result dictionary with
    [unprocessed_files] filled in, and the listings written, each under
    the category that ends its file name. *)
Record report : Type := Report {
  final_results : results;
  listings : list (string * list path);
}.

(** [results.update(d)] for the dictionary [d] of a workflow.  The
    per-file workflows leave [cursor] out of [d]; [results] has [None]
    there, which is what [d] is given here. *)
Definition update (r d : results) : results :=
  Results (processed d) (file_anomalies r) (errors d) (empty_files d)
    (fatal_error_occurred d) (failed_all_or_nothing d) (connection d)
    (cursor d) (unprocessed_files r).

Definition extend_errors (l : list path) (v : results) : results :=
  Results (processed v) (file_anomalies v) (errors v ++ l) (empty_files v)
    (fatal_error_occurred v) (failed_all_or_nothing v) (connection v)
    (cursor v) (unprocessed_files v).

Definition set_file_anomalies (l : list path) (v : results) : results :=
  Results (processed v) l (errors v) (empty_files v)
    (fatal_error_occurred v) (failed_all_or_nothing v) (connection v)
    (cursor v) (unprocessed_files v).

Definition set_unprocessed_files (l : list path) (v : results) : results :=
  Results (processed v) (file_anomalies v) (errors v) (empty_files v)
    (fatal_error_occurred v) (failed_all_or_nothing v) (connection v)
    (cursor v) l.

(** The final commit of the all-or-nothing mode, with its handlers. *)
Definition final_commit (conn : option conn_id) (r : results) : E results :=
  let* usable :=
    match conn with
    | Some c => let* closed := look (conn_closed c) in ret (negb closed)
    | None => ret false
    end in
  let* done := outcome_of
    match conn, usable with
    | Some c, true => call (conn_commit c) (EvCommit c)
    | _, _ => raise OperationalError
    end in
  match done with
  | inr _ => ret r
  | inl e =>
      let r := set_failed_all_or_nothing (set_fatal_error_occurred r) in
      do* _attempt_rollback conn
            (if is_psycopg2_Error e then "final commit failure"
             else "unexpected final commit error") in
      ret r
  end.

(** The handler of the orchestrator's [try]. *)
Definition orchestration_error (conn : option conn_id) (r : results)
    (sorted_sql_files : list path) : E (retval * results * list path) :=
  let r := set_fatal_error_occurred r in
  do* _attempt_rollback conn "unexpected orchestration error" in
  let r := set_connection conn r in
  ret (RetResults r, r, sorted_sql_files).

(** The [try] of the orchestrator with its [except]: which [return] was
    taken, together with [results] and [sorted_sql_files] as the
    [finally] block finds them.  The handler is written twice, for an
    exception raised before and after [sorted_sql_files] is set. *)
Definition orchestrate (conn : option conn_id) (db_params : db_params)
    (sql_dir : path) (transaction_mode : string)
    : E (retval * results * list path) :=
  let results := initial_results conn in
  try_except
    (let* exists_ := lift (is_dir fs sql_dir) in
     if negb exists_ then ret (RetBool false, results, [])
     else
       let paths_found := collect_file_paths sql_dir ".sql" in
       let sql_files_found := paths_found.1 in
       let anomalies := paths_found.2 in
       let results := set_file_anomalies (natsorted anomalies) results in
       if bool_decide (anomalies ≠ []) &&
          bool_decide (transaction_mode ∈
                         ["all-or-nothing"; "per-file-until-error"])
       then
         let results := set_fatal_error_occurred results in
         let results := extend_errors (file_anomalies results) results in
         ret (RetResults results, results, [])
       else
         let sorted_sql_files := natsorted (as_posix <$> sql_files_found) in
         match sorted_sql_files with
         | [] => ret (RetBool true, results, sorted_sql_files)
         | _ :: _ =>
             try_except
               (let* d :=
                  if String.eqb transaction_mode "per-file" then
                    let* d := _process_per_file (connection results)
                                db_params sorted_sql_files in
                    ret (Some d)
                  else if String.eqb transaction_mode "per-file-until-error" then
                    let* d := _process_per_file_until_error (connection results)
                                db_params sorted_sql_files in
                    ret (Some d)
                  else if String.eqb transaction_mode "all-or-nothing" then
                    let* d := _process_all_or_nothing (connection results)
                                db_params sorted_sql_files in
                    ret (Some d)
                  else ret None in
                match d with
                | None =>
                    ret (RetBool false, set_fatal_error_occurred results,
                         sorted_sql_files)
                | Some d =>
                    let results := update results d in
                    let conn := connection results in
                    let* results :=
                      if String.eqb transaction_mode "all-or-nothing" then
                        if negb (fatal_error_occurred results)
                        then final_commit conn results
                        else ret (set_failed_all_or_nothing results)
                      else ret results in
                    ret (RetResults results, results, sorted_sql_files)
                end)
               (λ e, orchestration_error conn results sorted_sql_files)
         end)
    (λ e, orchestration_error conn results []).

(** The category that ends the name of the listing of [processed]. *)
Definition processed_type (r : results) : string :=
  if failed_all_or_nothing r then "executable_files" else "committed_files".

(** The [finally] block of the orchestrator. *)
Definition write_report (r : results) (sorted_sql_files : list path)
    : E report :=
  do* close_cursor (cursor r) in
  let viewed : gset string :=
    list_to_set (processed r ++ errors r ++ empty_files r) in
  let r := set_unprocessed_files
             (filter (λ x, x ∉ viewed) sorted_sql_files) r in
  ret (Report r
         [(processed_type r, processed r);
          ("file_anomalies", file_anomalies r);
          ("errors", errors r);
          ("empty_files", empty_files r);
          ("unprocessed_files", unprocessed_files r)]).

(** The dictionary a [return results] hands over is the one the
    [finally] block completes, so the caller sees it completed.  The
    [except] clause of the [try] takes every exception
    ([orchestrate_returns]), so the [finally] block starts from what
    [orchestrate] gives. *)
Definition execute_sql_scripts_in_dir (conn : option conn_id)
    (db_params : db_params) (sql_dir : path) (transaction_mode : string)
    : E (retval * option report) :=
  match conn with
  | None => ret (RetBool false, None)
  | Some _ =>
      let* '(returned, r, sorted_sql_files) :=
        orchestrate conn db_params sql_dir transaction_mode in
      let* rep := write_report r sorted_sql_files in
      ret (match returned with
           | RetResults _ => RetResults (final_results rep)
           | RetBool b => RetBool b
           end, Some rep)
  end.

(** *** 8. Entry point *)

(** [if active_connection and not active_connection.closed: try:
    active_connection.close() except Exception: ...] *)
Definition close_connection (conn : option conn_id) : E unit :=
  match conn with
  | Some c =>
      let* closed := look (conn_closed c) in
      if closed then ret tt
      else try_except (call (conn_close c) (EvClose c)) (λ _, ret tt)
  | None => ret tt
  end.

(** The main flow after argument parsing, up to the status handed to
    [sys.exit].  A dictionary is true and has the method [get]; [True]
    is true and has none, so that asking it for [fatal_error_occurred]
    raises an [AttributeError], which the [except Exception] of the
    main flow takes. *)
Definition main (DB_PARAMS : db_params) (sql_dir : path)
    (transaction_mode : string) : E Z :=
  let* active_connection := connect_db DB_PARAMS 5 3 in
  match active_connection with
  | Some _ =>
      let* run := execute_sql_scripts_in_dir active_connection DB_PARAMS
                    sql_dir transaction_mode in
      let* '(execution_successful, active_connection) :=
        match run.1 with
        | RetResults r =>
            ret (negb (fatal_error_occurred r), connection r)
        | RetBool true =>
            do* _attempt_rollback active_connection
                  "critical main execution error" in
            ret (false, active_connection)
        | RetBool false => ret (false, active_connection)
        end in
      do* close_connection active_connection in
      ret (if execution_successful then 0 else 1)
  | None => ret 1
  end.

End Code.

(** ** A simulated environment

    A small database and filesystem to run the program on: the
    connections opened so far, which of them are closed, the
    transaction status of each, the cursors handed out, and how the
    server answers. *)

Module Sim.

Record world : Type := World {
  connect_replies : list (exn + unit);
  opened : nat;
  closed_conns : list conn_id;
  status : conn_id → Z;
  cursors : list conn_id;
  closed_cursors : list cursor_id;
  rejected : list string;
  dropping : list string;
  commit_fails : bool;
}.

(** One open connection, number 0, and a server that takes every script
    but those of [bad]. *)
Definition start (replies : list (exn + unit)) (bad drop : list string)
    (commit_fails : bool) : world :=
  World replies 1 [] (λ _, 0) [] [] bad drop commit_fails.

(** The same server before the program has opened any connection. *)
Definition boot (replies : list (exn + unit)) (bad drop : list string)
    (commit_fails : bool) : world :=
  World replies 0 [] (λ _, 0) [] [] bad drop commit_fails.

Definition set_status (c : conn_id) (s : Z) (w : world) : world :=
  World (connect_replies w) (opened w) (closed_conns w)
    (λ c', if decide (c' = c) then s else status w c')
    (cursors w) (closed_cursors w) (rejected w) (dropping w) (commit_fails w).

Definition set_closed (c : conn_id) (w : world) : world :=
  World (connect_replies w) (opened w) (c :: closed_conns w) (status w)
    (cursors w) (closed_cursors w) (rejected w) (dropping w) (commit_fails w).

Definition is_closed (c : conn_id) (w : world) : bool :=
  bool_decide (c ∈ closed_conns w).

(** The next reply decides; once the replies are used up the server is
    reachable. *)
Definition connect (params : db_params) (w : world) : reply world conn_id :=
  let rest := tail (connect_replies w) in
  match head (connect_replies w) with
  | Some (inl e) =>
      (inl e, World rest (opened w) (closed_conns w) (status w) (cursors w)
                (closed_cursors w) (rejected w) (dropping w) (commit_fails w))
  | _ =>
      (inr (opened w),
       World rest (S (opened w)) (closed_conns w) (status w) (cursors w)
         (closed_cursors w) (rejected w) (dropping w) (commit_fails w))
  end.

Definition open_cursor (c : conn_id) (w : world) : reply world cursor_id :=
  if is_closed c w then (inl DatabaseError, w)
  else (inr (List.length (cursors w)),
        World (connect_replies w) (opened w) (closed_conns w) (status w)
          (cursors w ++ [c]) (closed_cursors w) (rejected w) (dropping w)
          (commit_fails w)).

(** A rejected script leaves the transaction failed; after a script of
    [dropping] the connection is found closed. *)
Definition execute (k : cursor_id) (script : string) (w : world)
    : reply world unit :=
  match cursors w !! k with
  | None => (inl DatabaseError, w)
  | Some c =>
      if is_closed c w || bool_decide (k ∈ closed_cursors w)
      then (inl DatabaseError, w)
      else if bool_decide (script ∈ rejected w)
      then (inl DatabaseError, set_status c 3 w)
      else (inr tt,
            let w := set_status c 2 w in
            if bool_decide (script ∈ dropping w) then set_closed c w else w)
  end.

Definition commit (c : conn_id) (w : world) : reply world unit :=
  if is_closed c w || commit_fails w then (inl DatabaseError, w)
  else (inr tt, set_status c 0 w).

Definition rollback (c : conn_id) (w : world) : reply world unit :=
  if is_closed c w then (inl DatabaseError, w)
  else (inr tt, set_status c 0 w).

Definition close_cursor_of (k : cursor_id) (w : world) : reply world unit :=
  (inr tt,
   World (connect_replies w) (opened w) (closed_conns w) (status w)
     (cursors w) (k :: closed_cursors w) (rejected w) (dropping w)
     (commit_fails w)).

#[export] Instance driver : Driver world := {|
  psycopg2_connect := connect;
  time_sleep := λ _ w, w;
  conn_closed := is_closed;
  conn_cursor := open_cursor;
  conn_commit := commit;
  conn_rollback := rollback;
  conn_get_transaction_status := λ c w, inr (status w c);
  conn_close := λ c w, (inr tt, set_closed c w);
  cursor_closed := λ k w, bool_decide (k ∈ closed_cursors w);
  cursor_close := close_cursor_of;
  cursor_execute := execute;
|}.

(** A directory [dir] that holds the given regular files, each with
    what reading it gives, and the given names that are no regular
    files. *)
Definition disk (dir : path) (files : list (string * (exn + string)))
    (broken : list string) : filesystem := {|
  is_dir := λ p, inr (bool_decide (p = dir));
  os_walk := λ p,
    if bool_decide (p = dir) then [(dir, files.*1 ++ broken)] else [];
  is_file := λ p, inr (bool_decide (p ∈ joinpath dir <$> files.*1));
  read_text := λ p,
    match list_find (λ f, joinpath dir f.1 = p) files with
    | Some (_, (_, content)) => content
    | None => inl OSError
    end;
|}.

Definition params : db_params :=
  {| dbname := "postgres"; user := "postgres"; password := "secret";
     host := "localhost"; port := "5432" |}.

(** *** Directories to run on *)

(** Three scripts, the second of which the server rejects, and no
    anomaly. *)
Definition three_files : filesystem :=
  disk "d" [("1.sql", inr "SELECT 1;"); ("2.sql", inr "BAD");
            ("10.sql", inr "SELECT 10;")] [].

(** A directory without scripts. *)
Definition empty_dir : filesystem := disk "d" [] [].

(** One script and one broken link. *)
Definition with_anomaly : filesystem :=
  disk "d" [("1.sql", inr "SELECT 1;")] ["x.sql"].

End Sim.

(** ** Vocabulary of the statements *)

Section Vocabulary.
Context {W : Type} `{!Driver W}.
Local Abbreviation E := (eff W).

(** [m] run from [w] returns, and what it returns, the world it leaves
    and what it did satisfy [Q]. *)
Definition wp {A} (m : E A) (w : W) (Q : A → W → list event → Prop) : Prop :=
  match val (m w) with
  | inr a => Q a (world (m w)) (events (m w))
  | inl _ => False
  end.

(** A set of worlds that no call into the driver leaves. *)
Record closed_under_driver (Inv : W → Prop) : Prop := {
  inv_connect : ∀ p w, Inv w → Inv (psycopg2_connect p w).2;
  inv_sleep : ∀ d w, Inv w → Inv (time_sleep d w);
  inv_cursor : ∀ c w, Inv w → Inv (conn_cursor c w).2;
  inv_commit : ∀ c w, Inv w → Inv (conn_commit c w).2;
  inv_rollback : ∀ c w, Inv w → Inv (conn_rollback c w).2;
  inv_close : ∀ c w, Inv w → Inv (conn_close c w).2;
  inv_cursor_close : ∀ k w, Inv w → Inv (cursor_close k w).2;
  inv_execute : ∀ k s w, Inv w → Inv (cursor_execute k s w).2;
}.

(** The connections tried one after the other: between two tries there
    is one sleep. *)
Fixpoint attempts_trace (delay : Z) (tries : list (exn + conn_id))
    : list event :=
  match tries with
  | [] => []
  | [r] => [EvConnect r]
  | r :: rest => EvConnect r :: EvSleep delay :: attempts_trace delay rest
  end.

(** [_attempt_rollback] was called with this context message: each of
    its paths writes a log line. *)
Definition rollback_attempted (context_msg : string) (evs : list event)
    : Prop :=
  ∃ lvl line, EvLog lvl context_msg line ∈ evs.

(** Some event of [evs] is as [P] says. *)
Definition occurs (P : event → Prop) (evs : list event) : Prop :=
  ∃ ev, ev ∈ evs ∧ P ev.

(** [evs] falls into a first part where [P] occurs and a second part
    where [Q] does. *)
Definition happens_before (P Q : event → Prop) (evs : list event) : Prop :=
  ∃ l1 l2, evs = l1 ++ l2 ∧ occurs P l1 ∧ occurs Q l2.

(** A log line of [_attempt_rollback] under this context message. *)
Definition rollback_log (context_msg : string) (ev : event) : Prop :=
  ∃ lvl line, ev = EvLog lvl context_msg line.

(** The execution of this script went through. *)
Definition executed (script : string) (ev : event) : Prop :=
  ∃ k, ev = EvExecute k script (inr tt).

(** The paths a dictionary accounts for before the report step. *)
Definition viewed (r : results) : list path :=
  processed r ++ errors r ++ empty_files r.

(** [v'] accounts for what [v] did and for a first part of [files],
    each of them once. *)
Definition extends (files : list path) (v v' : results) : Prop :=
  ∃ n, viewed v' ≡ₚ viewed v ++ take n files
       ∧ file_anomalies v' = file_anomalies v
       ∧ unprocessed_files v' = unprocessed_files v.

(** The final commit on [conn] in the world [w] does not go through:
    there is no connection, or it is closed, or [commit] raises. *)
Definition final_commit_fails (conn : option conn_id) (w : W) : Prop :=
  match conn with
  | None => True
  | Some c => conn_closed c w = true ∨ ∃ e, (conn_commit c w).1 = inl e
  end.

(** The valid files of the run: what the scan finds, when the
    directory is there to be scanned. *)
Definition discovered (fs : filesystem) (sql_dir : path) : list path :=
  match is_dir fs sql_dir with
  | inr true => (collect_file_paths fs sql_dir ".sql").1
  | _ => []
  end.

(** The scan takes place and finds anomalies, in a mode that does not
    put up with them. *)
Definition gate_fires (fs : filesystem) (sql_dir : path)
    (transaction_mode : string) : Prop :=
  is_dir fs sql_dir = inr true
  ∧ (collect_file_paths fs sql_dir ".sql").2 ≠ []
  ∧ transaction_mode ∈ ["all-or-nothing"; "per-file-until-error"].

Global Instance gate_fires_dec fs sql_dir transaction_mode :
  Decision (gate_fires fs sql_dir transaction_mode).
Proof. unfold gate_fires. apply _. Defined.

(** The four outcome lists of [r] divide [files]: together they hold
    each of them once and nothing else. *)
Definition partitions (r : results) (files : list path) : Prop :=
  processed r ++ errors r ++ empty_files r ++ unprocessed_files r ≡ₚ files
  ∧ NoDup (processed r ++ errors r ++ empty_files r ++ unprocessed_files r).

End Vocabulary.

(** ** Vocabulary of the further properties *)

Section Footprint.
Context {W : Type} `{!Driver W}.

(** The paths the scan looks at: for each directory of the walk, in
    order, its names that end with the extension, joined to it. *)
Definition candidates (fs : filesystem) (dir_path : path) (ext : string)
    : list path :=
  mjoin ((λ entry : path * list string,
             joinpath entry.1
               <$> filter (λ f, endswith f ext = true) entry.2)
            <$> os_walk fs dir_path).

(** [full_path.is_file()] answers [True]. *)
Definition regular (fs : filesystem) (p : path) : Prop :=
  is_file fs p = inr true.

Global Instance regular_dec fs p : Decision (regular fs p).
Proof. unfold regular. apply _. Defined.

(** Whatever [m] does, from whatever world, is as [P] says. *)
Definition emits {A} (P : event → Prop) (m : eff W A) : Prop :=
  ∀ w, Forall P (events (m w)).

(** [s] is what reading one of [files] gives, and is not blank. *)
Definition script_of (fs : filesystem) (files : list path) (s : string)
    : Prop :=
  ∃ p, p ∈ files ∧ read_text fs p = inr s ∧ blank s = false.

(** Events that any run over any files may show. *)
Definition harmless (ev : event) : Prop :=
  match ev with
  | EvConnect _ | EvLog _ _ _ | EvRollback _ _ => True
  | EvSleep d => d = 3
  | _ => False
  end.

(** What a run over [files] may do: it does not close the connection,
    it sleeps three seconds at a time, and it executes scripts of
    [files] only. *)
Definition run_event (fs : filesystem) (files : list path) (ev : event)
    : Prop :=
  match ev with
  | EvClose _ _ => False
  | EvSleep d => d = 3
  | EvExecute _ s _ => script_of fs files s
  | _ => True
  end.

(** What the loop of the all-or-nothing workflow may do besides: no
    commit, no cursor opened or closed, and every execution through the
    cursor [k]. *)
Definition all_or_nothing_event (fs : filesystem) (files : list path)
    (k : cursor_id) (ev : event) : Prop :=
  match ev with
  | EvClose _ _ | EvCommit _ _ | EvCursor _ _ | EvCursorClose _ _ => False
  | EvSleep d => d = 3
  | EvExecute k' s _ => k' = k ∧ script_of fs files s
  | _ => True
  end.



(** Reading [p] gives a script that is not blank, and [evs] shows an
    execution of it through the cursor [k] that went through. *)
Definition executed_in (fs : filesystem) (k : cursor_id) (evs : list event)
    (p : path) : Prop :=
  ∃ s, read_text fs p = inr s ∧ blank s = false
       ∧ EvExecute k s (inr tt) ∈ evs.


End Footprint.

(** * Properties *)

(** ** The natural order *)

Section LexFacts.
Context {A : Type} (cmp : A → A → comparison).
Hypothesis cmp_eq : ∀ x y, cmp x y = Eq → x = y.
Hypothesis cmp_refl : ∀ x, cmp x x = Eq.
Hypothesis cmp_opp : ∀ x y, cmp y x = CompOpp (cmp x y).
Hypothesis cmp_lt_trans : ∀ x y z, cmp x y = Lt → cmp y z = Lt → cmp x z = Lt.





End LexFacts.












Lemma insert_sorted_Permutation x l : insert_sorted x l ≡ₚ x :: l.
Proof.
  induction l as [|y l IH]; simpl; [done|].
  destruct (natural_leb x y); [done|].
  rewrite IH. apply Permutation_swap.
Qed.

Lemma natsorted_Permutation l : natsorted l ≡ₚ l.
Proof.
  induction l as [|x l IH]; simpl; [done|].
  fold (natsorted l). by rewrite insert_sorted_Permutation, IH.
Qed.



Lemma natsorted_nil_inv l : natsorted l = [] → l = [].
Proof.
  intros Hl. apply Permutation_nil_r. rewrite <- Hl.
  symmetry. apply natsorted_Permutation.
Qed.


(** ** Reasoning about computations *)

Section Logic.
Context {W : Type} `{!Driver W}.
Local Abbreviation E := (eff W).

Lemma wp_elim {A} (m : E A) w Q :
  wp m w Q → ∃ a, val (m w) = inr a ∧ Q a (world (m w)) (events (m w)).
Proof. unfold wp. destruct (val (m w)); [done|eauto]. Qed.

Lemma wp_intro {A} (m : E A) w Q a :
  val (m w) = inr a → Q a (world (m w)) (events (m w)) → wp m w Q.
Proof. unfold wp. by intros ->. Qed.

Lemma wp_mono {A} (m : E A) w (Q Q' : A → W → list event → Prop) :
  wp m w Q → (∀ a w' evs, Q a w' evs → Q' a w' evs) → wp m w Q'.
Proof. unfold wp. destruct (val (m w)); [done|]. auto. Qed.

Lemma wp_ret {A} (a : A) w (Q : A → W → list event → Prop) :
  Q a w [] → wp (ret a) w Q.
Proof. done. Qed.

Lemma wp_bind {A B} (m : E A) (k : A → E B) w
    (Q : B → W → list event → Prop) :
  wp m w (λ a w1 e1, wp (k a) w1 (λ b w2 e2, Q b w2 (e1 ++ e2))) →
  wp (bind m k) w Q.
Proof.
  unfold wp, bind. destruct (val (m w)) as [e|a]; [done|]. simpl.
  by destruct (val (k a (world (m w)))).
Qed.

Lemma wp_outcome_of {A} (m : E A) w (Q : exn + A → W → list event → Prop) :
  Q (val (m w)) (world (m w)) (events (m w)) → wp (outcome_of m) w Q.
Proof. done. Qed.

Lemma wp_try_except {A} (m : E A) (h : exn → E A) w
    (Q : A → W → list event → Prop) :
  match val (m w) with
  | inr a => Q a (world (m w)) (events (m w))
  | inl e => wp (h e) (world (m w)) (λ a w2 e2, Q a w2 (events (m w) ++ e2))
  end →
  wp (try_except m h) w Q.
Proof.
  unfold wp, try_except. destruct (val (m w)) as [e|a] eqn:Hm; simpl.
  - by destruct (val (h e (world (m w)))).
  - by rewrite Hm.
Qed.

Lemma wp_try_finally {A} (m : E A) (fin : E unit) w
    (Q : A → W → list event → Prop) :
  wp m w (λ a w1 e1, wp fin w1 (λ _ w2 e2, Q a w2 (e1 ++ e2))) →
  wp (try_finally m fin) w Q.
Proof.
  unfold wp, try_finally. destruct (val (m w)) as [e|a]; [done|]. simpl.
  by destruct (val (fin (world (m w)))).
Qed.

Lemma wp_look {A} (f : W → A) w (Q : A → W → list event → Prop) :
  Q (f w) w [] → wp (look f) w Q.
Proof. done. Qed.

Lemma wp_emit ev w (Q : unit → W → list event → Prop) :
  Q tt w [ev] → wp (emit ev) w Q.
Proof. done. Qed.

(** The outcome of a call into the driver, whatever it is. *)
Lemma wp_outcome_of_call {A} (f : W → reply W A) (ev : exn + A → event) w
    (Q : exn + A → W → list event → Prop) :
  Q (f w).1 (f w).2 [ev (f w).1] → wp (outcome_of (call f ev)) w Q.
Proof. unfold wp, outcome_of, call. by destruct (f w). Qed.

Lemma val_call {A} (f : W → reply W A) (ev : exn + A → event) w :
  val (call f ev w) = (f w).1 ∧ world (call f ev w) = (f w).2
  ∧ events (call f ev w) = [ev (f w).1].
Proof. unfold call. by destruct (f w). Qed.

Lemma closed_under_driver_True : closed_under_driver (λ _, True).
Proof. by split. Qed.


Lemma bind_inl {A B} (m : E A) (k : A → E B) w e :
  val (m w) = inl e → bind m k w = Out (inl e) (world (m w)) (events (m w)).
Proof. unfold bind. by intros ->. Qed.

Lemma bind_inr {A B} (m : E A) (k : A → E B) w a :
  val (m w) = inr a →
  bind m k w =
  Out (val (k a (world (m w)))) (world (k a (world (m w))))
    (events (m w) ++ events (k a (world (m w)))).
Proof. unfold bind. by intros ->. Qed.

Lemma call_eq {A} (f : W → reply W A) (ev : exn + A → event) w :
  call f ev w = Out (f w).1 (f w).2 [ev (f w).1].
Proof. unfold call. by destruct (f w). Qed.


Lemma wp_try_except_returns {A} (m : E A) (h : exn → E A) w
    (Q : A → W → list event → Prop) :
  wp m w Q → wp (try_except m h) w Q.
Proof.
  intros Hm. apply wp_try_except. unfold wp in Hm.
  by destruct (val (m w)).
Qed.

Lemma wp_lift {A} (a : A) w (Q : A → W → list event → Prop) :
  Q a w [] → wp (lift (inr a)) w Q.
Proof. done. Qed.


Lemma wp_bind_val {A B} (m : E A) (k : A → E B) w a
    (Q : B → W → list event → Prop) :
  val (m w) = inr a →
  wp (k a) (world (m w)) (λ b w2 e2, Q b w2 (events (m w) ++ e2)) →
  wp (bind m k) w Q.
Proof. intros Hm Hk. apply wp_bind. unfold wp at 1. by rewrite Hm. Qed.

End Logic.

(** ** The helpers *)

Section Helpers.
Context {W : Type} `{!Driver W}.
Variable fs : filesystem.
Variable Inv : W → Prop.
Hypothesis HInv : closed_under_driver Inv.

Lemma connect_db_from_spec params attempt_limit delay attempt todo w :
  attempt + Z.of_nat todo = attempt_limit + 1 →
  let r := connect_db_from params attempt_limit delay attempt todo w in
  ∃ tries,
    events r = attempts_trace delay tries
    ∧ (List.length tries ≤ todo)%nat
    ∧ (todo ≠ O → tries ≠ [])
    ∧ (∀ i t, tries !! i = Some t → (S i < List.length tries)%nat →
              t = inl OperationalError)
    ∧ val r = inr (match last tries with Some (inr c) => Some c | _ => None end)
    ∧ (last tries = Some (inl OperationalError) → List.length tries = todo)
    ∧ (Inv w → Inv (world r)).
Proof.
  revert attempt w. induction todo as [|todo IH]; intros attempt w Hsum; simpl.
  { exists []. simpl. split_and!; try done. }
  unfold bind, outcome_of, call; simpl.
  destruct (psycopg2_connect params w) as [[e|c] w1] eqn:Hc; simpl.
  2:{ exists [inr c]. simpl. split_and!; try done; try lia.
      intros Hw. pose proof (inv_connect _ HInv params w Hw) as Hi.
      by rewrite Hc in Hi. }
  assert (HI1 : Inv w → Inv w1).
  { intros Hw. pose proof (inv_connect _ HInv params w Hw) as Hi.
    by rewrite Hc in Hi. }
  destruct (is_OperationalError e) eqn:He; simpl.
  2:{ exists [inl e]. simpl. split_and!; try done; try lia.
      intros [= ->]. done. }
  destruct e; try done. clear He.
  destruct (attempt <? attempt_limit) eqn:Hlt; simpl.
  - apply Z.ltb_lt in Hlt.
    destruct (IH (attempt + 1) (time_sleep delay w1) ltac:(lia))
      as (tries & Hev & Hlen & Hne & Hmid & Hval & Hlast & Hinv).
    assert (Htodo : todo ≠ O) by lia.
    specialize (Hne Htodo).
    destruct tries as [|t0 tries]; [done|].
    exists (inl OperationalError :: t0 :: tries).
    rewrite Hval. simpl. split_and!.
    + f_equal. f_equal. exact Hev.
    + simpl in Hlen. lia.
    + done.
    + intros [|i] t Ht Hi; simpl in *; [congruence|].
      apply (Hmid i t Ht). lia.
    + done.
    + intros Hl. simpl in Hlen. f_equal. by apply Hlast.
    + intros Hw. apply Hinv. apply (inv_sleep _ HInv). auto.
  - apply Z.ltb_ge in Hlt.
    assert (todo = O) by lia. subst todo. simpl.
    exists [inl OperationalError]. simpl. split_and!; try done; try lia.
Qed.

Lemma connect_db_inv params attempt_limit delay w :
  Inv w →
  wp (connect_db params attempt_limit delay) w (λ _ w' _, Inv w').
Proof.
  intros Hw. unfold connect_db.
  destruct (Z_le_gt_dec attempt_limit 0) as [Hle|Hgt].
  - replace (Z.to_nat attempt_limit) with O by lia. by apply wp_ret.
  - destruct (connect_db_from_spec params attempt_limit delay 1
                (Z.to_nat attempt_limit) w ltac:(lia))
      as (tries & _ & _ & _ & _ & Hval & _ & Hinv).
    eapply wp_intro; [exact Hval|]. by apply Hinv.
Qed.


Lemma ensure_connection_spec current_conn params w :
  Inv w →
  wp (_ensure_connection current_conn params) w
    (λ r w' evs,
       Inv w'
       ∧ (∀ c, current_conn = Some c → conn_closed c w = false →
               r = Some c ∧ w' = w ∧ evs = [])).
Proof.
  intros Hw. unfold _ensure_connection.
  destruct current_conn as [c|].
  - apply wp_bind, wp_bind, wp_look, wp_ret.
    destruct (conn_closed c w) eqn:Hc; simpl.
    + eapply wp_mono; [by apply connect_db_inv|].
      intros r w' evs Hw'. split; [done|]. intros c' [= <-] ?. congruence.
    + apply wp_ret. split; [done|]. by intros c' [= <-] _.
  - apply wp_bind, wp_ret. simpl.
    eapply wp_mono; [by apply connect_db_inv|].
    intros r w' evs Hw'. split; [done|]. done.
Qed.

Lemma attempt_rollback_spec conn context_msg w :
  Inv w →
  wp (_attempt_rollback conn context_msg) w
    (λ _ w' evs, Inv w' ∧ rollback_attempted context_msg evs).
Proof.
  intros Hw.
  unfold _attempt_rollback, wp, rollback_attempted, try_except, bind, look,
    ask, ret, log_rollback, emit, call.
  destruct conn as [c|]; simpl.
  2:{ split; [done|]. do 2 eexists. apply list_elem_of_here. }
  destruct (conn_closed c w); simpl.
  { split; [done|]. do 2 eexists. apply list_elem_of_here. }
  destruct (conn_get_transaction_status c w) as [e|s]; simpl.
  { destruct (is_psycopg2_Error e); simpl.
    all: split; [done|]; do 2 eexists; apply list_elem_of_here. }
  destruct ((s =? TRANSACTION_STATUS_INTRANS) || (s =? 3)); simpl.
  2:{ split; [done|]. do 2 eexists. apply list_elem_of_here. }
  pose proof (inv_rollback _ HInv c w Hw) as Hw'.
  destruct (conn_rollback c w) as [[e|[]] w']; simpl in *.
  - destruct (is_psycopg2_Error e); simpl.
    all: split; [done|]; do 2 eexists; apply list_elem_of_here.
  - split; [done|]. do 2 eexists. apply list_elem_of_here.
Qed.

Lemma close_cursor_spec k w :
  Inv w → wp (close_cursor k) w (λ _ w' evs, Inv w').
Proof.
  intros Hw. unfold close_cursor, wp, bind, look, try_except, call, ret.
  destruct k as [k|]; simpl; [|done].
  destruct (cursor_closed k w); simpl; [done|].
  pose proof (inv_cursor_close _ HInv k w Hw) as Hw'.
  by destruct (cursor_close k w) as [[e|[]] w'].
Qed.

Lemma close_connection_spec conn w :
  Inv w →
  wp (close_connection conn) w
    (λ _ w' evs, Inv w' ∧ ∀ ev, ev ∈ evs → ∃ c r, ev = EvClose c r).
Proof.
  intros Hw. unfold close_connection, wp, bind, look, try_except, call, ret.
  destruct conn as [c|]; simpl; [|split; [done|set_solver]].
  destruct (conn_closed c w); simpl; [split; [done|set_solver]|].
  pose proof (inv_close _ HInv c w Hw) as Hw'.
  destruct (conn_close c w) as [[e|[]] w']; simpl in *.
  all: split; [done|]; intros ev Hev; rewrite app_nil_r in Hev || idtac.
  all: apply list_elem_of_singleton in Hev as ->; eauto.
Qed.


Lemma read_sql_file_val sql_file_path (w : W) :
  _read_sql_file fs sql_file_path w =
  Out (match read_text fs sql_file_path with
       | inl e => inl e
       | inr s => inr (if blank s then None else Some s)
       end) w [].
Proof.
  unfold _read_sql_file, bind, lift, ret. simpl.
  destruct (read_text fs sql_file_path) as [e|s]; simpl; [done|].
  by destruct (blank s).
Qed.

(** The [try] of a per-file loop always comes to an end, and a file
    read error or an empty file is met before anything is asked of the
    database. *)
Lemma per_file_try_spec c k sql_file_path mode w :
  Inv w →
  wp (per_file_try fs c k sql_file_path mode) w
    (λ kr w' evs,
       Inv w'
       ∧ match read_text fs sql_file_path with
         | inl e => kr = (k, inl e) ∧ w' = w ∧ evs = []
         | inr s =>
             if blank s then kr = (k, inr Skipped) ∧ w' = w ∧ evs = []
             else kr.2 ≠ inr Skipped
         end).
Proof.
  intros Hw. unfold per_file_try.
  apply wp_bind, wp_outcome_of. rewrite read_sql_file_val. simpl.
  destruct (read_text fs sql_file_path) as [e|s]; simpl.
  { by apply wp_ret. }
  destruct (blank s); simpl.
  { by apply wp_ret. }
  apply wp_bind. eapply wp_mono; [by apply close_cursor_spec|].
  intros [] w1 e1 Hw1. simpl.
  apply wp_bind, wp_outcome_of_call.
  pose proof (inv_cursor _ HInv c w1 Hw1) as Hw2.
  destruct (conn_cursor c w1) as [[e|k'] w2]; simpl in *.
  { by apply wp_ret. }
  apply wp_bind, wp_outcome_of.
  unfold _execute_sql, _attempt_commit, bind, call, ret. simpl.
  pose proof (inv_execute _ HInv k' s w2 Hw2) as Hw3.
  destruct (cursor_execute k' s w2) as [[e|[]] w3]; simpl in *.
  { by apply wp_ret. }
  pose proof (inv_commit _ HInv c w3 Hw3) as Hw4.
  destruct (conn_commit c w3) as [[e|[]] w4]; simpl in *.
  all: by apply wp_ret.
Qed.

(** The file is read, is not empty, a cursor is opened, and the script
    meets the answer [answer] of the database in every world of [Inv]:
    the [try] ends the way the execution and the commit do. *)
Lemma per_file_try_runs c k sql_file_path mode s w :
  Inv w →
  read_text fs sql_file_path = inr s → blank s = false →
  (∀ w, Inv w → ∃ k', (conn_cursor c w).1 = inr k') →
  wp (per_file_try fs c k sql_file_path mode) w
    (λ kr w' evs,
       Inv w'
       ∧ ∃ k' w2 w3,
           Inv w2 ∧ Inv w3 ∧ w3 = (cursor_execute k' s w2).2
           ∧ EvExecute k' s (cursor_execute k' s w2).1 ∈ evs
           ∧ kr.1 = Some k'
           ∧ kr.2 = match (cursor_execute k' s w2).1 with
                    | inl e => inl e
                    | inr _ =>
                        match (conn_commit c w3).1 with
                        | inl e => inl e
                        | inr _ => inr Completed
                        end
                    end).
Proof.
  intros Hw Hread Hblank Hcur. unfold per_file_try.
  apply wp_bind, wp_outcome_of. rewrite read_sql_file_val. simpl.
  rewrite Hread, Hblank. simpl.
  apply wp_bind. eapply wp_mono; [by apply close_cursor_spec|].
  intros [] w1 e1 Hw1. simpl.
  apply wp_bind, wp_outcome_of_call.
  pose proof (inv_cursor _ HInv c w1 Hw1) as Hw2.
  destruct (Hcur w1 Hw1) as [k' Hk'].
  destruct (conn_cursor c w1) as [r w2]; simpl in *. subst r.
  apply wp_bind, wp_outcome_of.
  unfold _execute_sql, _attempt_commit, bind, call, ret. simpl.
  pose proof (inv_execute _ HInv k' s w2 Hw2) as Hw3.
  destruct (cursor_execute k' s w2) as [[e|[]] w3] eqn:Hex; simpl in *.
  { apply wp_ret. split; [done|]. exists k', w2, w3. rewrite Hex.
    split_and!; try done. set_solver. }
  pose proof (inv_commit _ HInv c w3 Hw3) as Hw4.
  destruct (conn_commit c w3) as [[e|[]] w4] eqn:Hco; simpl in *.
  all: apply wp_ret; split; [done|]; exists k', w2, w3;
       rewrite Hex; simpl; rewrite Hco; split_and!; try done; set_solver.
Qed.


Lemma extends_here files v v' :
  viewed v' = viewed v → file_anomalies v' = file_anomalies v →
  unprocessed_files v' = unprocessed_files v → extends files v v'.
Proof. intros Hv ? ?. exists O. rewrite Hv. simpl. by rewrite app_nil_r. Qed.

Lemma extends_stop p rest v v' :
  viewed v' ≡ₚ viewed v ++ [p] → file_anomalies v' = file_anomalies v →
  unprocessed_files v' = unprocessed_files v → extends (p :: rest) v v'.
Proof. intros Hv ? ?. exists 1%nat. by rewrite Hv. Qed.

Lemma extends_step p rest v v1 v' :
  viewed v1 ≡ₚ viewed v ++ [p] → file_anomalies v1 = file_anomalies v →
  unprocessed_files v1 = unprocessed_files v →
  extends rest v1 v' → extends (p :: rest) v v'.
Proof.
  intros Hv Ha Hu (n & Hn & Ha' & Hu'). exists (S n). split_and!.
  - rewrite Hn, Hv. simpl. by rewrite <- app_assoc.
  - congruence.
  - congruence.
Qed.

Lemma viewed_append_processed p v :
  viewed (append_processed p v) ≡ₚ viewed v ++ [p].
Proof.
  unfold viewed. simpl. rewrite <- !app_assoc.
  apply Permutation_app_head.
  rewrite (Permutation_app_comm [p]). by rewrite <- !app_assoc.
Qed.

Lemma viewed_append_errors p v :
  viewed (append_errors p v) ≡ₚ viewed v ++ [p].
Proof.
  unfold viewed. simpl. rewrite <- !app_assoc.
  do 2 apply Permutation_app_head. apply Permutation_app_comm.
Qed.

Lemma viewed_append_empty_files p v :
  viewed (append_empty_files p v) ≡ₚ viewed v ++ [p].
Proof. unfold viewed. simpl. by rewrite <- !app_assoc. Qed.

Lemma per_file_loop_spec params files v w :
  Inv w →
  wp (per_file_loop fs params files v) w
    (λ v' w' _,
       Inv w' ∧ extends files v v'
       ∧ failed_all_or_nothing v' = failed_all_or_nothing v
       ∧ (fatal_error_occurred v' = true →
          fatal_error_occurred v = true ∨ connection v' = None)).
Proof.
  revert v w. induction files as [|p rest IH]; intros v w Hw; simpl.
  { apply wp_ret. split_and!; auto. by apply extends_here. }
  apply wp_bind.
  eapply wp_mono; [by apply ensure_connection_spec|].
  intros [c|] w1 e1 [Hw1 _]; simpl.
  2:{ apply wp_ret. split_and!; auto. by apply extends_here. }
  apply wp_bind.
  eapply wp_mono; [by apply per_file_try_spec|].
  intros [k r] w2 e2 [Hw2 _]; simpl.
  apply wp_bind, wp_try_finally.
  assert (Hgo : ∀ v1 w3,
            Inv w3 →
            viewed v1 ≡ₚ viewed v ++ [p] →
            file_anomalies v1 = file_anomalies v →
            unprocessed_files v1 = unprocessed_files v →
            failed_all_or_nothing v1 = failed_all_or_nothing v →
            fatal_error_occurred v1 = fatal_error_occurred v →
            wp (close_cursor k) w3
              (λ _ w4 e4,
                 wp (per_file_loop fs params rest v1) w4
                   (λ v' w5 e5,
                      Inv w5 ∧ extends (p :: rest) v v'
                      ∧ failed_all_or_nothing v' = failed_all_or_nothing v
                      ∧ (fatal_error_occurred v' = true →
                         fatal_error_occurred v = true
                         ∨ connection v' = None)))).
  { intros v1 w3 Hw3 Hv Ha Hu Hf Hfat.
    eapply wp_mono; [by apply close_cursor_spec|].
    intros [] w4 e4 Hw4.
    eapply wp_mono; [by apply IH|].
    intros v' w5 e5 (Hw5 & Hext & Hf' & Hfat'). split_and!.
    - done.
    - by eapply extends_step.
    - congruence.
    - intros Ht. destruct (Hfat' Ht); [left; congruence|by right]. }
  destruct r as [e|[|]].
  - destruct (is_file_error e); [|destruct (is_psycopg2_Error e)].
    + apply wp_ret. apply Hgo; try done. by rewrite viewed_append_errors.
    + apply wp_bind.
      eapply wp_mono; [by apply attempt_rollback_spec|].
      intros [] w3 e3 [Hw3 _]. apply wp_ret.
      apply Hgo; try done. by rewrite viewed_append_errors.
    + apply wp_bind.
      eapply wp_mono; [by apply attempt_rollback_spec|].
      intros [] w3 e3 [Hw3 _]. apply wp_ret.
      apply Hgo; try done. by rewrite viewed_append_errors.
  - apply wp_ret. apply Hgo; try done.
    by rewrite viewed_append_empty_files.
  - apply wp_ret. apply Hgo; try done.
    by rewrite viewed_append_processed.
Qed.


Lemma viewed_errors p v0 v :
  processed v0 = processed v → errors v0 = errors v ++ [p] →
  empty_files v0 = empty_files v → viewed v0 ≡ₚ viewed v ++ [p].
Proof.
  unfold viewed. intros -> -> ->. rewrite <- !app_assoc.
  do 2 apply Permutation_app_head. apply Permutation_app_comm.
Qed.

Lemma viewed_empty_files p v0 v :
  processed v0 = processed v → errors v0 = errors v →
  empty_files v0 = empty_files v ++ [p] → viewed v0 ≡ₚ viewed v ++ [p].
Proof. unfold viewed. intros -> -> ->. by rewrite <- !app_assoc. Qed.

Lemma viewed_processed p v0 v :
  processed v0 = processed v ++ [p] → errors v0 = errors v →
  empty_files v0 = empty_files v → viewed v0 ≡ₚ viewed v ++ [p].
Proof.
  unfold viewed. intros -> -> ->. rewrite <- !app_assoc.
  apply Permutation_app_head.
  rewrite (Permutation_app_comm [p]). by rewrite <- !app_assoc.
Qed.

Lemma per_file_until_error_loop_spec params files v w :
  Inv w →
  wp (per_file_until_error_loop fs params files v) w
    (λ v' w' _,
       Inv w' ∧ extends files v v'
       ∧ failed_all_or_nothing v' = failed_all_or_nothing v).
Proof.
  revert v w. induction files as [|p rest IH]; intros v w Hw; simpl.
  { apply wp_ret. split_and!; auto. by apply extends_here. }
  apply wp_bind.
  eapply wp_mono; [by apply ensure_connection_spec|].
  intros [c|] w1 e1 [Hw1 _]; simpl.
  2:{ apply wp_ret. split_and!; auto.
      apply extends_stop; try done. by apply viewed_errors. }
  apply wp_bind.
  eapply wp_mono; [by apply per_file_try_spec|].
  intros [k r] w2 e2 [Hw2 _]; simpl.
  apply wp_bind, wp_try_finally.
  assert (Hgo : ∀ v1 w3,
            Inv w3 →
            viewed v1 ≡ₚ viewed v ++ [p] →
            file_anomalies v1 = file_anomalies v →
            unprocessed_files v1 = unprocessed_files v →
            failed_all_or_nothing v1 = failed_all_or_nothing v →
            wp (close_cursor k) w3
              (λ _ w4 e4,
                 wp (per_file_until_error_loop fs params rest v1) w4
                   (λ v' w5 e5,
                      Inv w5 ∧ extends (p :: rest) v v'
                      ∧ failed_all_or_nothing v' = failed_all_or_nothing v))).
  { intros v1 w3 Hw3 Hv Ha Hu Hf.
    eapply wp_mono; [by apply close_cursor_spec|].
    intros [] w4 e4 Hw4.
    eapply wp_mono; [by apply IH|].
    intros v' w5 e5 (Hw5 & Hext & Hf'). split_and!.
    - done.
    - by eapply extends_step.
    - congruence. }
  destruct r as [e|[|]].
  - apply wp_bind.
    eapply wp_mono; [by apply attempt_rollback_spec|].
    intros [] w3 e3 [Hw3 _]. apply wp_ret.
    eapply wp_mono; [by apply close_cursor_spec|].
    intros [] w4 e4 Hw4. apply wp_ret. split_and!; try done.
    apply extends_stop; try done. by apply viewed_errors.
  - apply wp_ret. apply Hgo; try done.
    by apply viewed_empty_files.
  - apply wp_ret. apply Hgo; try done.
    by apply viewed_processed.
Qed.

Lemma all_or_nothing_try_val k sql_file_path w :
  (let* sql_script := _read_sql_file fs sql_file_path in
   match sql_script with
   | None => ret Skipped
   | Some sql_script =>
       do* _execute_sql k sql_script sql_file_path in ret Completed
   end) w =
  match read_text fs sql_file_path with
  | inl e => Out (inl e) w []
  | inr s =>
      if blank s then Out (inr Skipped) w []
      else
        let r := cursor_execute k s w in
        Out (match r.1 with inl e => inl e | inr _ => inr Completed end)
          r.2 [EvExecute k s r.1]
  end.
Proof.
  unfold bind at 1. rewrite read_sql_file_val. simpl.
  destruct (read_text fs sql_file_path) as [e|s]; simpl; [done|].
  destruct (blank s); simpl; [done|].
  unfold _execute_sql, bind, call, ret.
  by destruct (cursor_execute k s w) as [[e|[]] w'].
Qed.

Lemma all_or_nothing_loop_spec params k files v w :
  Inv w →
  wp (all_or_nothing_loop fs params k files v) w
    (λ v' w' _, Inv w' ∧ extends files v v' ∧ cursor v' = cursor v).
Proof.
  revert v w. induction files as [|p rest IH]; intros v w Hw; simpl.
  { apply wp_ret. split_and!; auto. by apply extends_here. }
  apply wp_bind.
  eapply wp_mono; [by apply ensure_connection_spec|].
  intros [c|] w1 e1 [Hw1 _]; simpl.
  2:{ apply wp_bind.
      eapply wp_mono; [by apply attempt_rollback_spec|].
      intros [] w3 e3 [Hw3 _]. apply wp_ret. split_and!; auto.
      apply extends_stop; try done. by apply viewed_errors. }
  apply wp_bind, wp_outcome_of.
  rewrite all_or_nothing_try_val.
  assert (Hgo : ∀ v1 w3,
            Inv w3 →
            viewed v1 ≡ₚ viewed v ++ [p] →
            file_anomalies v1 = file_anomalies v →
            unprocessed_files v1 = unprocessed_files v →
            cursor v1 = cursor v →
            wp (all_or_nothing_loop fs params k rest v1) w3
              (λ v' w5 e5,
                 Inv w5 ∧ extends (p :: rest) v v' ∧ cursor v' = cursor v)).
  { intros v1 w3 Hw3 Hv Ha Hu Hk.
    eapply wp_mono; [by apply IH|].
    intros v' w5 e5 (Hw5 & Hext & Hk'). split_and!.
    - done.
    - by eapply extends_step.
    - congruence. }
  assert (Hstop : ∀ e w3,
            Inv w3 →
            wp (do* _attempt_rollback (Some c)
                      ((if is_file_error e then "file error "
                        else if is_psycopg2_Error e then "DB error "
                        else "unexpected error ") +:+ name p) in
                ret (set_failed_all_or_nothing
                       (set_fatal_error_occurred
                          (append_errors p (set_connection (Some c) v))))) w3
              (λ v' w5 e5,
                 Inv w5 ∧ extends (p :: rest) v v' ∧ cursor v' = cursor v)).
  { intros e w3 Hw3. apply wp_bind.
    eapply wp_mono; [by apply attempt_rollback_spec|].
    intros [] w4 e4 [Hw4 _]. apply wp_ret. split_and!; auto.
    apply extends_stop; try done. by apply viewed_errors. }
  destruct (read_text fs p) as [e|s]; simpl.
  { by apply Hstop. }
  destruct (blank s); simpl.
  { apply Hgo; try done. by apply viewed_empty_files. }
  pose proof (inv_execute _ HInv k s w1 Hw1) as Hw2.
  destruct (cursor_execute k s w1) as [[e|[]] w2]; simpl in *.
  { by apply Hstop. }
  apply Hgo; try done. by apply viewed_processed.
Qed.


Lemma viewed_initial_results conn : viewed (initial_results conn) = [].
Proof. done. Qed.

Lemma process_per_file_spec conn params files w :
  Inv w →
  wp (_process_per_file fs conn params files) w
    (λ d w' _,
       Inv w' ∧ (∃ n, viewed d ≡ₚ take n files)
       ∧ failed_all_or_nothing d = false
       ∧ (fatal_error_occurred d = true → connection d = None)).
Proof.
  intros Hw. unfold _process_per_file. apply wp_bind.
  eapply wp_mono; [by apply per_file_loop_spec|].
  intros v w' evs (Hw' & (n & Hn & _) & Hf & Hfat). apply wp_ret.
  split_and!; try done.
  - by exists n.
  - intros Ht. by destruct (Hfat Ht).
Qed.

Lemma process_per_file_until_error_spec conn params files w :
  Inv w →
  wp (_process_per_file_until_error fs conn params files) w
    (λ d w' _,
       Inv w' ∧ (∃ n, viewed d ≡ₚ take n files)
       ∧ failed_all_or_nothing d = false).
Proof.
  intros Hw. unfold _process_per_file_until_error. apply wp_bind.
  eapply wp_mono; [by apply per_file_until_error_loop_spec|].
  intros v w' evs (Hw' & (n & Hn & _) & Hf). apply wp_ret.
  split_and!; try done. by exists n.
Qed.

Lemma process_all_or_nothing_spec conn params files w :
  Inv w →
  wp (_process_all_or_nothing fs conn params files) w
    (λ d w' _, Inv w' ∧ ∃ n, viewed d ≡ₚ take n files).
Proof.
  intros Hw. unfold _process_all_or_nothing. apply wp_try_except.
  assert (Hfail : ∀ w1 (evs : list event),
            Inv w1 →
            wp (do* _attempt_rollback conn "transaction setup error" in
                ret (set_failed_all_or_nothing
                       (set_fatal_error_occurred (initial_results conn)))) w1
              (λ d w2 e2, Inv w2 ∧ ∃ n, viewed d ≡ₚ take n files)).
  { intros w1 _ Hw1. apply wp_bind.
    eapply wp_mono; [by apply attempt_rollback_spec|].
    intros [] w2 e2 [Hw2 _]. apply wp_ret. split; [done|]. by exists O. }
  destruct conn as [c|].
  2:{ rewrite (bind_inl _ _ _ OtherException) by done. by apply (Hfail w []). }
  pose proof (inv_cursor _ HInv c w Hw) as Hw1.
  destruct (conn_cursor c w) as [[e|k] w1] eqn:Hc; simpl in *.
  { rewrite (bind_inl _ _ _ e) by (by rewrite call_eq, Hc).
    rewrite call_eq, Hc. simpl. by apply (Hfail w1 []). }
  rewrite (bind_inr _ _ _ k) by (by rewrite call_eq, Hc).
  rewrite call_eq, Hc. simpl.
  pose proof (all_or_nothing_loop_spec params k files
                (set_cursor (Some k) (initial_results (Some c))) w1 Hw1) as Hl.
  apply wp_elim in Hl as (v & Hv & Hw2 & (n & Hn & _) & _).
  rewrite Hv. split; [done|]. by exists n.
Qed.

Lemma final_commit_spec conn r w :
  Inv w →
  wp (final_commit conn r) w
    (λ r' w' evs,
       Inv w'
       ∧ viewed r' = viewed r ∧ processed r' = processed r
       ∧ file_anomalies r' = file_anomalies r
       ∧ unprocessed_files r' = unprocessed_files r).
Proof.
  intros Hw. unfold final_commit. apply wp_bind.
  assert (Hfail : ∀ e w1,
            Inv w1 →
            wp (do* _attempt_rollback conn
                      (if is_psycopg2_Error e then "final commit failure"
                       else "unexpected final commit error") in
                ret (set_failed_all_or_nothing (set_fatal_error_occurred r)))
              w1
              (λ r' w' _,
                 Inv w' ∧ viewed r' = viewed r ∧ processed r' = processed r
                 ∧ file_anomalies r' = file_anomalies r
                 ∧ unprocessed_files r' = unprocessed_files r)).
  { intros e w1 Hw1. apply wp_bind.
    eapply wp_mono; [by apply attempt_rollback_spec|].
    intros [] w2 e2 [Hw2 _]. by apply wp_ret. }
  destruct conn as [c|].
  2:{ apply wp_ret, wp_bind, wp_outcome_of. by apply (Hfail OperationalError). }
  apply wp_bind, wp_look, wp_ret.
  destruct (conn_closed c w); simpl.
  { apply wp_bind, wp_outcome_of. by apply (Hfail OperationalError). }
  apply wp_bind, wp_outcome_of_call.
  pose proof (inv_commit _ HInv c w Hw) as Hw1.
  destruct (conn_commit c w) as [[e|[]] w1]; simpl in *.
  - by apply (Hfail e).
  - by apply wp_ret.
Qed.


Lemma fmap_as_posix (l : list path) : as_posix <$> l = l.
Proof. apply list_fmap_id. Qed.

Lemma attempt_rollback_returns conn context_msg w :
  val (_attempt_rollback conn context_msg w) = inr tt.
Proof.
  unfold _attempt_rollback, try_except, bind, look, ask, ret, log_rollback,
    emit, call.
  destruct conn as [c|]; simpl; [|done].
  destruct (conn_closed c w); simpl; [done|].
  destruct (conn_get_transaction_status c w) as [e|s]; simpl.
  { by destruct (is_psycopg2_Error e). }
  destruct ((s =? TRANSACTION_STATUS_INTRANS) || (s =? 3)); simpl; [|done].
  destruct (conn_rollback c w) as [[e|[]] w']; simpl; [|done].
  by destruct (is_psycopg2_Error e).
Qed.

Lemma orchestration_error_spec conn r sorted_sql_files w :
  Inv w →
  wp (orchestration_error conn r sorted_sql_files) w
    (λ out w' _,
       Inv w' ∧ out.2 = sorted_sql_files ∧ viewed out.1.2 = viewed r
       ∧ ∃ r', out.1.1 = RetResults r').
Proof.
  intros Hw. unfold orchestration_error. apply wp_bind.
  eapply wp_mono; [by apply attempt_rollback_spec|].
  intros [] w' evs [Hw' _]. apply wp_ret. split_and!; eauto.
Qed.

(** Unless the anomaly gate fires, the orchestrator reaches its
    [finally] block with the valid files in [sorted_sql_files] and with
    a result dictionary that accounts for a first part of them. *)
Lemma orchestrate_spec conn params sql_dir transaction_mode w :
  Inv w →
  ¬ gate_fires fs sql_dir transaction_mode →
  wp (orchestrate fs conn params sql_dir transaction_mode) w
    (λ out w' _,
       Inv w' ∧ out.2 ≡ₚ discovered fs sql_dir
       ∧ ∃ n, viewed out.1.2 ≡ₚ take n out.2).
Proof.
  intros Hw Hgate. unfold orchestrate, discovered, gate_fires in *.
  destruct (is_dir fs sql_dir) as [e|[|]] eqn:Hdir.
  - apply wp_try_except.
    rewrite (bind_inl _ _ _ e) by done. simpl.
    eapply wp_mono; [by apply orchestration_error_spec|].
    intros [[ret r] sorted] w' evs (Hw' & -> & Hv & _). simpl in *.
    split_and!; [done|done|]. exists O. by rewrite Hv.
  - apply wp_try_except_returns, wp_bind, wp_lift. simpl.
    set (paths_found := collect_file_paths fs sql_dir ".sql") in *.
    destruct (bool_decide (paths_found.2 ≠ []) &&
              bool_decide (transaction_mode ∈
                             ["all-or-nothing"; "per-file-until-error"]))
      eqn:Hg.
    { exfalso. apply Hgate. apply andb_prop in Hg as [H1 H2].
      apply bool_decide_eq_true in H1, H2. done. }
    clear Hg. rewrite fmap_as_posix.
    pose proof (natsorted_Permutation paths_found.1) as Hperm.
    destruct (natsorted paths_found.1) as [|p sorted] eqn:Hsorted; simpl.
    { apply wp_ret. split_and!; [done|done|]. by exists O. }
    apply wp_try_except_returns.
    set (r0 := set_file_anomalies (natsorted paths_found.2)
                 (initial_results conn)).
    assert (Hdone : ∀ d w1 (b : bool),
              Inv w1 → (∃ n, viewed d ≡ₚ take n (p :: sorted)) →
              wp (let results := update r0 d in
                  let conn := connection results in
                  let* results :=
                    if b then
                      if negb (fatal_error_occurred results)
                      then final_commit conn results
                      else ret (set_failed_all_or_nothing results)
                    else ret results in
                  ret (RetResults results, results, p :: sorted)) w1
                (λ out w' _,
                   Inv w' ∧ out.2 ≡ₚ paths_found.1
                   ∧ ∃ n, viewed out.1.2 ≡ₚ take n out.2)).
    { intros d w1 b Hw1 (n & Hn). simpl. apply wp_bind.
      destruct b; [destruct (negb (fatal_error_occurred d))|].
      - eapply wp_mono; [by apply final_commit_spec|].
        intros r' w3 e3 (Hw3 & Hv & _). apply wp_ret. simpl.
        split_and!; [done|done|]. exists n. by rewrite Hv.
      - apply wp_ret, wp_ret. simpl. split_and!; [done|done|]. by exists n.
      - apply wp_ret, wp_ret. simpl. split_and!; [done|done|]. by exists n. }
    assert (Hwp : wp
              (let* d :=
                 if String.eqb transaction_mode "per-file" then
                   let* d := _process_per_file fs (connection r0) params
                               (p :: sorted) in ret (Some d)
                 else if String.eqb transaction_mode "per-file-until-error"
                 then
                   let* d := _process_per_file_until_error fs (connection r0)
                               params (p :: sorted) in ret (Some d)
                 else if String.eqb transaction_mode "all-or-nothing" then
                   let* d := _process_all_or_nothing fs (connection r0) params
                               (p :: sorted) in ret (Some d)
                 else ret None in
               match d with
               | None =>
                   ret (RetBool false, set_fatal_error_occurred r0, p :: sorted)
               | Some d =>
                   let results := update r0 d in
                   let conn := connection results in
                   let* results :=
                     if String.eqb transaction_mode "all-or-nothing" then
                       if negb (fatal_error_occurred results)
                       then final_commit conn results
                       else ret (set_failed_all_or_nothing results)
                     else ret results in
                   ret (RetResults results, results, p :: sorted)
               end) w
              (λ out w' _,
                 Inv w' ∧ out.2 ≡ₚ paths_found.1
                 ∧ ∃ n, viewed out.1.2 ≡ₚ take n out.2)).
    { destruct (String.eqb transaction_mode "per-file") eqn:E1;
        [|destruct (String.eqb transaction_mode "per-file-until-error") eqn:E2;
          [|destruct (String.eqb transaction_mode "all-or-nothing") eqn:E3]].
      - apply wp_bind, wp_bind.
        eapply wp_mono; [by apply process_per_file_spec|].
        intros d w1 e1 (Hw1 & (n & Hn) & _). apply wp_ret.
        apply Hdone; eauto.
      - apply wp_bind, wp_bind.
        eapply wp_mono; [by apply process_per_file_until_error_spec|].
        intros d w1 e1 (Hw1 & (n & Hn) & _). apply wp_ret.
        apply Hdone; eauto.
      - apply wp_bind, wp_bind.
        eapply wp_mono; [by apply process_all_or_nothing_spec|].
        intros d w1 e1 (Hw1 & (n & Hn)). apply wp_ret.
        apply (Hdone d w1 true); eauto.
      - apply wp_bind, wp_ret, wp_ret. simpl.
        split_and!; [done|done|]. by exists O. }
    exact Hwp.
  - apply wp_try_except_returns, wp_bind, wp_lift. simpl.
    apply wp_ret. split_and!; [done|done|]. by exists O.
Qed.


Lemma filter_none {A} (P : A → Prop) `{∀ x, Decision (P x)} (l : list A) :
  (∀ x, x ∈ l → ¬ P x) → filter P l = [].
Proof.
  induction l as [|x l IH]; intros Hl; [done|].
  rewrite filter_cons_False by (apply Hl; left).
  apply IH. intros y Hy. apply Hl. by right.
Qed.

Lemma filter_all {A} (P : A → Prop) `{∀ x, Decision (P x)} (l : list A) :
  (∀ x, x ∈ l → P x) → filter P l = l.
Proof.
  induction l as [|x l IH]; intros Hl; [done|].
  rewrite filter_cons_True by (apply Hl; left).
  f_equal. apply IH. intros y Hy. apply Hl. by right.
Qed.

(** With no path twice in [sorted_sql_files], what was not viewed is
    what follows the part that was. *)
Lemma unviewed_is_rest (sorted_sql_files seen : list string) n :
  NoDup sorted_sql_files →
  seen ≡ₚ take n sorted_sql_files →
  filter (λ x, x ∉ (list_to_set seen : gset string)) sorted_sql_files =
  drop n sorted_sql_files.
Proof.
  intros Hnd Hseen.
  rewrite <- (take_drop n sorted_sql_files) in Hnd.
  apply NoDup_app in Hnd as (_ & Hdisj & _).
  rewrite <- (take_drop n sorted_sql_files) at 1.
  rewrite filter_app, filter_none, filter_all; [done| |].
  - intros x Hx. rewrite elem_of_list_to_set, Hseen.
    intros Hin. by apply (Hdisj x).
  - intros x Hx Hn. apply Hn. rewrite elem_of_list_to_set, Hseen. done.
Qed.

Lemma write_report_spec r sorted_sql_files w :
  Inv w →
  wp (write_report r sorted_sql_files) w
    (λ rep w' _,
       Inv w'
       ∧ final_results rep =
           set_unprocessed_files
             (filter (λ x, x ∉ (list_to_set (viewed r) : gset string))
                sorted_sql_files) r
       ∧ listings rep =
           [(processed_type r, processed r);
            ("file_anomalies", file_anomalies r);
            ("errors", errors r);
            ("empty_files", empty_files r);
            ("unprocessed_files", unprocessed_files (final_results rep))]).
Proof.
  intros Hw. unfold write_report. apply wp_bind.
  eapply wp_mono; [by apply close_cursor_spec|].
  intros [] w' evs Hw'. by apply wp_ret.
Qed.

Lemma partitions_of_prefix r sorted_sql_files files n :
  NoDup files → sorted_sql_files ≡ₚ files →
  viewed r ≡ₚ take n sorted_sql_files →
  partitions
    (set_unprocessed_files
       (filter (λ x, x ∉ (list_to_set (viewed r) : gset string))
          sorted_sql_files) r) files.
Proof.
  intros Hnd Hperm Hn.
  assert (Hnd' : NoDup sorted_sql_files) by by rewrite Hperm.
  unfold partitions. simpl.
  replace (filter _ sorted_sql_files) with (drop n sorted_sql_files)
    by (symmetry; by apply unviewed_is_rest).
  assert (Hall : processed r ++ errors r ++ empty_files r
                 ++ drop n sorted_sql_files ≡ₚ files).
  { rewrite <- Hperm. rewrite <- (take_drop n sorted_sql_files) at 2.
    rewrite <- Hn. unfold viewed. by rewrite <- !app_assoc. }
  split; [done|]. by rewrite Hall.
Qed.


(** What the orchestrator has in hand when the anomaly gate fires. *)
Lemma orchestrate_gate conn params sql_dir transaction_mode w :
  gate_fires fs sql_dir transaction_mode →
  let anomalies := natsorted (collect_file_paths fs sql_dir ".sql").2 in
  let r := extend_errors anomalies
             (set_fatal_error_occurred
                (set_file_anomalies anomalies (initial_results conn))) in
  orchestrate fs conn params sql_dir transaction_mode w =
  Out (inr (RetResults r, r, [])) w [].
Proof.
  intros (Hdir & Han & Hmode). unfold orchestrate.
  unfold try_except, bind at 1, lift. rewrite Hdir. simpl.
  rewrite !bool_decide_eq_true_2 by done. done.
Qed.


Lemma orchestrate_per_file c params sql_dir w p sorted d :
  is_dir fs sql_dir = inr true →
  natsorted (collect_file_paths fs sql_dir ".sql").1 = p :: sorted →
  val (_process_per_file fs (Some c) params (p :: sorted) w) = inr d →
  let r := update
             (set_file_anomalies
                (natsorted (collect_file_paths fs sql_dir ".sql").2)
                (initial_results (Some c))) d in
  wp (orchestrate fs (Some c) params sql_dir "per-file") w
    (λ out _ _, out = (RetResults r, r, p :: sorted)).
Proof.
  intros Hdir Hsorted Hd r. unfold orchestrate.
  apply wp_try_except_returns. rewrite Hdir. apply wp_bind, wp_lift.
  simpl negb. cbv iota.
  replace (bool_decide ("per-file" ∈ ["all-or-nothing"; "per-file-until-error"]))
    with false by done.
  rewrite andb_false_r, fmap_as_posix, Hsorted.
  apply wp_try_except_returns.
  change (String.eqb "per-file" "per-file") with true.
  change (String.eqb "per-file" "all-or-nothing") with false.
  cbv iota.
  apply wp_bind. eapply wp_bind_val; [exact Hd|].
  repeat first [apply wp_ret | apply wp_bind]. done.
Qed.

End Helpers.

(** ** The claims about the connection and the workflows *)

Section Claims.
Context {W : Type} `{!Driver W}.
Variable fs : filesystem.



(** C1 (as amended).  Every run that is given a connection reaches the
    report step.  Unless the anomaly gate halts it, [processed],
    [errors], [empty_files] and [unprocessed_files] of the final result
    divide the discovered valid files among them, each file in one list
    and once, whatever the mode and however the run ended (a lost
    connection, an unknown mode and a missing directory included).  In
    a run that the anomaly gate halts, [errors] holds the anomalies, in
    natural order, and [processed] and [empty_files] hold nothing. *)
Theorem outcome_lists_partition c params sql_dir transaction_mode w :
  NoDup (discovered fs sql_dir) →
  ∃ ret rep,
    val (execute_sql_scripts_in_dir fs (Some c) params sql_dir
           transaction_mode w) = inr (ret, Some rep)
    ∧ (¬ gate_fires fs sql_dir transaction_mode →
       partitions (final_results rep) (discovered fs sql_dir))
    ∧ (gate_fires fs sql_dir transaction_mode →
       errors (final_results rep) =
         natsorted (collect_file_paths fs sql_dir ".sql").2
       ∧ processed (final_results rep) = []
       ∧ empty_files (final_results rep) = []
       ∧ fatal_error_occurred (final_results rep) = true).
Proof.
  intros Hnd.
  destruct (decide (gate_fires fs sql_dir transaction_mode)) as [Hg|Hg].
  - unfold execute_sql_scripts_in_dir.
    erewrite bind_inr; [|by rewrite orchestrate_gate].
    rewrite orchestrate_gate by done. simpl.
    do 2 eexists. split; [done|]. split; [done|]. intros _. done.
  - assert (Hwp : wp (execute_sql_scripts_in_dir fs (Some c) params sql_dir
                        transaction_mode) w
                    (λ out _ _,
                       ∃ rep, out.2 = Some rep
                              ∧ partitions (final_results rep)
                                  (discovered fs sql_dir))).
    { unfold execute_sql_scripts_in_dir. apply wp_bind.
      eapply wp_mono;
        [by apply (orchestrate_spec fs (λ _, True) closed_under_driver_True)|].
      intros [[ret r] sorted] w1 e1 (_ & Hperm & n & Hn). simpl in *.
      apply wp_bind.
      eapply wp_mono;
        [by apply (write_report_spec (λ _, True) closed_under_driver_True)|].
      intros rep w2 e2 (_ & Hrep & _). apply wp_ret. simpl.
      exists rep. split; [done|]. rewrite Hrep.
      by eapply partitions_of_prefix. }
    apply wp_elim in Hwp as ([ret orep] & Hval & rep & Hrep & Hpart).
    simpl in Hrep. subst orep.
    exists ret, rep. split; [done|]. split; [done|]. done.
Qed.

(** C8.  [_attempt_rollback] looks at the connection and at the
    transaction status first.  It calls [rollback] exactly when the
    connection is there and open and the status is the one of a
    transaction in progress or of a failed one; in that case it does
    nothing but this call and its log lines.  In every other case it
    leaves the world as it is and writes one log line.  Whatever the
    driver answers or raises, it returns to its caller, who goes on
    with the outcomes it had recorded. *)
Theorem attempt_rollback_best_effort conn context_msg w :
  let r := _attempt_rollback conn context_msg w in
  let needed :=
    ∃ c s, conn = Some c ∧ conn_closed c w = false
           ∧ conn_get_transaction_status c w = inr s
           ∧ (s = TRANSACTION_STATUS_INTRANS ∨ s = 3) in
  val r = inr tt
  ∧ ((∃ c res, EvRollback c res ∈ events r) ↔ needed)
  ∧ (∀ c, conn = Some c → needed →
       world r = (conn_rollback c w).2
       ∧ ∃ s line,
           events r = [EvLog WARNING context_msg (AttemptingRollback s);
                       EvRollback c (conn_rollback c w).1; line]
           ∧ line = match (conn_rollback c w).1 with
                    | inr _ => EvLog INFO context_msg RollbackSuccessful
                    | inl e =>
                        EvLog ERROR context_msg
                          (if is_psycopg2_Error e then RollbackFailed e
                           else UnexpectedRollbackError e)
                    end)
  ∧ (¬ needed →
       world r = w ∧ ∃ lvl line, events r = [EvLog lvl context_msg line])
  ∧ (∀ v : results,
       val ((do* _attempt_rollback conn context_msg in ret v) w) = inr v).
Proof.
  assert (Hnil : ∀ l : list event,
            (∀ x, x ∈ l → ∀ c res, x ≠ EvRollback c res) →
            ¬ ∃ c res, EvRollback c res ∈ l).
  { intros l Hl (c & res & Hin). by apply (Hl _ Hin c res). }
  intros r needed. subst r needed.
  unfold _attempt_rollback, try_except, bind, look, ask, ret, log_rollback,
    emit, call, TRANSACTION_STATUS_INTRANS.
  destruct conn as [c|]; simpl.
  2:{ split_and!; try done. 
      - split; [intros Hin|intros (c & s & ? & _)]; [|done].
        exfalso; revert Hin; apply Hnil; set_solver.
      - intros _. eauto. }
  destruct (conn_closed c w) eqn:Hclosed; simpl.
  { split_and!; try done.
    - split; [intros Hin|intros (c' & s & [= <-] & ? & _)];
        [|congruence].
      exfalso; revert Hin; apply Hnil; set_solver.
    - intros c' [= <-] (c2 & s & [= <-] & ? & _). congruence.
    - intros _. eauto. }
  destruct (conn_get_transaction_status c w) as [e|s] eqn:Hs; simpl.
  { destruct (is_psycopg2_Error e); simpl.
    all: split_and!; try done.
    all: try (split; [intros Hin|intros (c' & s & [= <-] & ? & ? & _)];
              [|congruence];
              exfalso; revert Hin; apply Hnil; set_solver).
    all: try (intros c' [= <-] (c2 & s & [= <-] & ? & ? & _); congruence).
    all: intros _; eauto. }
  destruct ((s =? 2) || (s =? 3)) eqn:Hst; simpl.
  - assert (Hs23 : s = 2 ∨ s = 3) by lia.
    destruct (conn_rollback c w) as [[e|[]] w'] eqn:Hrb; simpl.
    + destruct (is_psycopg2_Error e) eqn:He; simpl.
      all: split_and!; try done.
      all: try (split; [intros _; by exists c, s|intros _];
                exists c, (inl e); set_solver).
      all: try (intros c' [= <-] _; rewrite Hrb; simpl; rewrite ?He;
                split; [done|]; exists s; by eexists).
      all: intros Hn; exfalso; apply Hn; by exists c, s.
    + split_and!; try done.
      * split; [intros _; by exists c, s|intros _].
        exists c, (inr tt). set_solver.
      * intros c' [= <-] _. rewrite Hrb. simpl.
        split; [done|]. exists s. by eexists.
      * intros Hn. exfalso. apply Hn. by exists c, s.
  - split_and!; try done.
    + split; [intros Hin; exfalso; revert Hin; apply Hnil; set_solver|].
      intros (c' & s' & [= <-] & _ & Hs' & Hor).
      assert (s' = s) by congruence. lia.
    + intros c' [= <-] (c2 & s' & [= <-] & _ & Hs' & Hor).
      assert (s' = s) by congruence. lia.
    + intros _. eauto.
Qed.


(** C10.  When the directory exists and the scan finds neither a valid
    file nor an anomaly, [execute_sql_scripts_in_dir] hands back the
    bare [True], with no fatal error recorded in the result that the
    report step completes; and the entry point, whatever becomes of its
    connection, exits with status 1: when it has a connection, it is
    through the handler of its [try], whose rollback attempt shows in
    the log. *)
Theorem empty_directory_exits_1 params sql_dir transaction_mode :
  is_dir fs sql_dir = inr true →
  collect_file_paths fs sql_dir ".sql" = ([], []) →
  (∀ c w, ∃ rep,
     execute_sql_scripts_in_dir fs (Some c) params sql_dir transaction_mode w
       = Out (inr (RetBool true, Some rep)) w []
     ∧ fatal_error_occurred (final_results rep) = false)
  ∧ (∀ w, val (main fs params sql_dir transaction_mode w) = inr 1
          ∧ (∀ c, val (connect_db params 5 3 w) = inr (Some c) →
                  rollback_attempted "critical main execution error"
                    (events (main fs params sql_dir transaction_mode w)))).
Proof.
  intros Hdir Hscan.
  assert (Hexec : ∀ c w,
            execute_sql_scripts_in_dir fs (Some c) params sql_dir
              transaction_mode w
            = Out (inr (RetBool true,
                        Some (Report (initial_results (Some c))
                                [("committed_files", []);
                                 ("file_anomalies", []);
                                 ("errors", []);
                                 ("empty_files", []);
                                 ("unprocessed_files", [])]))) w []).
  { intros c w. unfold execute_sql_scripts_in_dir, orchestrate.
    unfold try_except, bind at 2, lift. rewrite Hdir, Hscan. done. }
  split.
  { intros c w. eexists. split; [apply Hexec|done]. }
  intros w.
  assert (Hwp : wp (main fs params sql_dir transaction_mode) w
                  (λ code _ evs,
                     code = 1
                     ∧ (∀ c, val (connect_db params 5 3 w) = inr (Some c) →
                             rollback_attempted
                               "critical main execution error" evs))).
  { unfold main.
    pose proof (connect_db_inv (λ _, True) closed_under_driver_True
                  params 5 3 w I) as Hc.
    apply wp_elim in Hc as (oc & Hoc & _).
    eapply wp_bind_val; [exact Hoc|].
    destruct oc as [c|].
    2:{ apply wp_ret. split; [done|]. intros c. by rewrite Hoc. }
    eapply wp_bind_val; [by rewrite Hexec|]. rewrite Hexec. simpl.
    apply wp_bind, wp_bind.
    eapply wp_mono;
      [by apply (attempt_rollback_spec (λ _, True) closed_under_driver_True)|].
    intros [] w1 e1 [_ (lvl & line & Hlog)]. apply wp_ret, wp_bind.
    eapply wp_mono;
      [by apply (close_connection_spec (λ _, True) closed_under_driver_True)|].
    intros [] w2 e2 _. apply wp_ret. split; [done|].
    intros c' _. exists lvl, line. set_solver. }
  apply wp_elim in Hwp as (code & Hval & -> & Hlog). done.
Qed.


(** C3 (as amended).  Let the scan of an existing directory find
    anomalies.  In all-or-nothing and in per-file-until-error mode the
    orchestrator then does nothing with the database: no connection
    attempt, no cursor, no SQL; it leaves the world as it found it,
    marks the run fatal and puts the anomalies, in natural order, into
    [errors].  The connection attempts of the whole run are those of
    the one [connect_db] with which the entry point begins, before the
    scan; after them the run only closes the connection, and it exits
    with status 1.  In per-file mode the run goes on: [file_anomalies]
    lists the anomalies, every path in the four outcome lists is a
    valid file, and when there are valid files the outcome is that of
    the per-file workflow on them in natural order. *)
Theorem anomaly_gate params sql_dir :
  let files := (collect_file_paths fs sql_dir ".sql").1 in
  let anomalies := (collect_file_paths fs sql_dir ".sql").2 in
  is_dir fs sql_dir = inr true →
  anomalies ≠ [] →
  (∀ transaction_mode,
     transaction_mode ∈ ["all-or-nothing"; "per-file-until-error"] →
     (∀ c w, ∃ rep,
        execute_sql_scripts_in_dir fs (Some c) params sql_dir
          transaction_mode w
          = Out (inr (RetResults (final_results rep), Some rep)) w []
        ∧ fatal_error_occurred (final_results rep) = true
        ∧ errors (final_results rep) = natsorted anomalies
        ∧ file_anomalies (final_results rep) = natsorted anomalies
        ∧ processed (final_results rep) = [])
     ∧ (∀ w, let run := main fs params sql_dir transaction_mode w in
             val run = inr 1
             ∧ ∃ closing,
                 events run = events (connect_db params 5 3 w) ++ closing
                 ∧ ∀ ev, ev ∈ closing → ∃ c r, ev = EvClose c r))
  ∧ (∀ c w, ∃ ret rep,
       val (execute_sql_scripts_in_dir fs (Some c) params sql_dir
              "per-file" w) = inr (ret, Some rep)
       ∧ file_anomalies (final_results rep) = natsorted anomalies
       ∧ (∀ x, x ∈ viewed (final_results rep)
                     ++ unprocessed_files (final_results rep) →
               x ∈ files)
       ∧ (files ≠ [] →
          ∃ d, val (_process_per_file fs (Some c) params (natsorted files) w)
                 = inr d
               ∧ ret = RetResults (final_results rep)
               ∧ processed (final_results rep) = processed d
               ∧ errors (final_results rep) = errors d
               ∧ empty_files (final_results rep) = empty_files d
               ∧ fatal_error_occurred (final_results rep)
                   = fatal_error_occurred d)).
Proof.
  intros files anomalies Hdir Han. split.
  - intros transaction_mode Hmode.
    assert (Hgate : gate_fires fs sql_dir transaction_mode) by done.
    assert (Hexec : ∀ c w, ∃ rep,
              execute_sql_scripts_in_dir fs (Some c) params sql_dir
                transaction_mode w
                = Out (inr (RetResults (final_results rep), Some rep)) w []
              ∧ fatal_error_occurred (final_results rep) = true
              ∧ errors (final_results rep) = natsorted anomalies
              ∧ file_anomalies (final_results rep) = natsorted anomalies
              ∧ processed (final_results rep) = []
              ∧ connection (final_results rep) = Some c).
    { intros c w. unfold execute_sql_scripts_in_dir.
      erewrite bind_inr; [|by rewrite orchestrate_gate].
      rewrite orchestrate_gate by done. simpl.
      eexists (Report _ _). split; [reflexivity|]. done. }
    split.
    { intros c w. destruct (Hexec c w) as (rep & ? & ? & ? & ? & ? & _).
      by exists rep. }
    intros w run. subst run.
    assert (Hwp : wp (main fs params sql_dir transaction_mode) w
                    (λ code _ evs,
                       code = 1
                       ∧ ∃ closing,
                           evs = events (connect_db params 5 3 w) ++ closing
                           ∧ ∀ ev, ev ∈ closing → ∃ c r, ev = EvClose c r)).
    { unfold main.
      pose proof (connect_db_inv (λ _, True) closed_under_driver_True
                    params 5 3 w I) as Hc.
      apply wp_elim in Hc as (oc & Hoc & _).
      eapply wp_bind_val; [exact Hoc|].
      destruct oc as [c|].
      2:{ apply wp_ret. split; [done|]. exists []. split; [done|]. set_solver. }
      destruct (Hexec c (world (connect_db params 5 3 w)))
        as (rep & Hrep & Hfatal & _ & _ & _ & Hconn).
      eapply wp_bind_val; [by rewrite Hrep|]. rewrite Hrep. simpl.
      rewrite Hfatal, Hconn. apply wp_bind, wp_ret, wp_bind.
      eapply wp_mono;
        [by apply (close_connection_spec (λ _, True) closed_under_driver_True)|].
      intros [] w2 e2 [_ He2]. apply wp_ret. split; [done|].
      exists e2. split; [|done]. simpl. by rewrite app_nil_r. }
    apply wp_elim in Hwp as (code & Hval & -> & Hev). done.
  - intros c w.
    pose proof (natsorted_Permutation files) as Hperm.
    destruct (natsorted files) as [|p sorted] eqn:Hsorted.
    + apply Permutation_nil_l in Hperm.
      assert (Hwp : wp (execute_sql_scripts_in_dir fs (Some c) params sql_dir
                          "per-file") w
                      (λ out _ _,
                         out = (RetBool true,
                                Some (Report
                                        (set_file_anomalies (natsorted anomalies)
                                           (initial_results (Some c)))
                                        [("committed_files", []);
                                         ("file_anomalies", natsorted anomalies);
                                         ("errors", []);
                                         ("empty_files", []);
                                         ("unprocessed_files", [])])))).
      { unfold execute_sql_scripts_in_dir, orchestrate.
        apply wp_bind, wp_try_except_returns. rewrite Hdir.
        apply wp_bind, wp_lift. simpl negb. cbv iota.
        replace (bool_decide ("per-file" ∈
                   ["all-or-nothing"; "per-file-until-error"]))
          with false by done.
        rewrite andb_false_r, fmap_as_posix.
        fold files. fold anomalies. rewrite Hsorted.
        repeat first [apply wp_ret | apply wp_bind]. done. }
      apply wp_elim in Hwp as (out & Hval & ->).
      eexists _, (Report _ _). split; [exact Hval|]. simpl.
      split; [done|]. split; [set_solver|]. intros Hne. by rewrite <- Hperm in Hne.
    + pose proof (process_per_file_spec fs (λ _, True) closed_under_driver_True
                    (Some c) params (p :: sorted) w I) as Hpf.
      apply wp_elim in Hpf as (d & Hd & _ & (n & Hn) & _).
      assert (Hwp : wp (execute_sql_scripts_in_dir fs (Some c) params sql_dir
                          "per-file") w
                      (λ out _ _,
                         ∃ rep,
                           out = (RetResults (final_results rep), Some rep)
                           ∧ final_results rep =
                               set_unprocessed_files
                                 (filter (λ x, x ∉ (list_to_set (viewed d)
                                                      : gset string))
                                    (p :: sorted))
                                 (update
                                    (set_file_anomalies (natsorted anomalies)
                                       (initial_results (Some c))) d))).
      { unfold execute_sql_scripts_in_dir. apply wp_bind.
        eapply wp_mono; [by eapply orchestrate_per_file|].
        intros out w1 e1 ->. apply wp_bind.
        eapply wp_mono;
          [by apply (write_report_spec (λ _, True) closed_under_driver_True)|].
        intros rep w2 e2 (_ & Hrep & _). apply wp_ret. exists rep.
        simpl. by rewrite Hrep. }
      apply wp_elim in Hwp as (out & Hval & rep & -> & Hrep).
      exists (RetResults (final_results rep)), rep.
      split; [exact Hval|]. rewrite Hrep. simpl. split_and!.
      * done.
      * intros x Hx. rewrite <- Hperm.
        apply elem_of_app in Hx as [Hx|Hx].
        -- change (x ∈ viewed d) in Hx. rewrite Hn in Hx.
           rewrite <- (take_drop n (p :: sorted)).
           apply elem_of_app. by left.
        -- by apply list_elem_of_filter in Hx as [_ Hx].
      * intros _. exists d. by rewrite <- Hrep.
Qed.


Lemma final_commit_fails_spec conn r w :
  final_commit_fails conn w →
  wp (final_commit conn r) w
    (λ r' _ evs,
       r' = set_failed_all_or_nothing (set_fatal_error_occurred r)
       ∧ (rollback_attempted "final commit failure" evs
          ∨ rollback_attempted "unexpected final commit error" evs)).
Proof.
  intros Hfails. unfold final_commit. apply wp_bind.
  assert (Hfail : ∀ e w1 (evs : list event),
            wp (do* _attempt_rollback conn
                      (if is_psycopg2_Error e then "final commit failure"
                       else "unexpected final commit error") in
                ret (set_failed_all_or_nothing (set_fatal_error_occurred r)))
              w1
              (λ r' _ e2,
                 r' = set_failed_all_or_nothing (set_fatal_error_occurred r)
                 ∧ (rollback_attempted "final commit failure" (evs ++ e2)
                    ∨ rollback_attempted "unexpected final commit error"
                        (evs ++ e2)))).
  { intros e w1 evs. apply wp_bind.
    eapply wp_mono;
      [by apply (attempt_rollback_spec (λ _, True) closed_under_driver_True)|].
    intros [] w2 e2 [_ (lvl & line & Hlog)]. apply wp_ret. split; [done|].
    destruct (is_psycopg2_Error e); [left|right]; exists lvl, line;
      set_solver. }
  destruct conn as [c|]; simpl in Hfails.
  2:{ apply wp_ret, wp_bind, wp_outcome_of.
      apply (Hfail OperationalError w ([] ++ [])). }
  apply wp_bind, wp_look, wp_ret.
  destruct (conn_closed c w) eqn:Hclosed; simpl.
  { apply wp_bind, wp_outcome_of.
    apply (Hfail OperationalError w (([] ++ []) ++ [])). }
  destruct Hfails as [?|[e He]]; [done|].
  apply wp_bind, wp_outcome_of_call. rewrite He.
  apply (Hfail e).
Qed.


(** C4.  In all-or-nothing mode, let the workflow end without a fatal
    error, every file read having been executed or skipped as empty,
    and let the final commit then fail: the connection is gone or
    closed, or [commit] raises.  Then the result is marked
    [fatal_error_occurred] and [failed_all_or_nothing], a rollback is
    attempted, [processed] still holds the files that were executed,
    and their listing is written under [executable_files], none under
    [committed_files]. *)
Theorem final_commit_failure params sql_dir c w :
  let files := natsorted (collect_file_paths fs sql_dir ".sql").1 in
  let workflow := _process_all_or_nothing fs (Some c) params files w in
  is_dir fs sql_dir = inr true →
  (collect_file_paths fs sql_dir ".sql").2 = [] →
  files ≠ [] →
  ∀ d, val workflow = inr d →
  fatal_error_occurred d = false →
  final_commit_fails (connection d) (world workflow) →
  let run := execute_sql_scripts_in_dir fs (Some c) params sql_dir
               "all-or-nothing" w in
  ∃ rep,
    val run = inr (RetResults (final_results rep), Some rep)
    ∧ fatal_error_occurred (final_results rep) = true
    ∧ failed_all_or_nothing (final_results rep) = true
    ∧ (rollback_attempted "final commit failure" (events run)
       ∨ rollback_attempted "unexpected final commit error" (events run))
    ∧ processed (final_results rep) = processed d
    ∧ listings rep !! 0%nat = Some ("executable_files", processed d)
    ∧ "committed_files" ∉ (listings rep).*1.
Proof.
  intros files workflow Hdir Han Hfiles d Hd Hfatal Hfails run.
  subst run workflow.
  assert (Hwp : wp (execute_sql_scripts_in_dir fs (Some c) params sql_dir
                      "all-or-nothing") w
                  (λ out _ evs,
                     ∃ rep,
                       out = (RetResults (final_results rep), Some rep)
                       ∧ fatal_error_occurred (final_results rep) = true
                       ∧ failed_all_or_nothing (final_results rep) = true
                       ∧ (rollback_attempted "final commit failure" evs
                          ∨ rollback_attempted
                              "unexpected final commit error" evs)
                       ∧ processed (final_results rep) = processed d
                       ∧ listings rep !! 0%nat
                           = Some ("executable_files", processed d)
                       ∧ "committed_files" ∉ (listings rep).*1)).
  { unfold execute_sql_scripts_in_dir, orchestrate.
    apply wp_bind, wp_try_except_returns. rewrite Hdir.
    apply wp_bind, wp_lift. simpl negb. cbv iota. rewrite Han.
    change (bool_decide (@nil path ≠ [])) with false. simpl andb. cbv iota.
    rewrite fmap_as_posix. fold files.
    destruct files as [|p sorted] eqn:Hsorted; [done|].
    apply wp_try_except_returns.
    change (String.eqb "all-or-nothing" "per-file") with false.
    change (String.eqb "all-or-nothing" "per-file-until-error") with false.
    change (String.eqb "all-or-nothing" "all-or-nothing") with true.
    cbv iota.
    apply wp_bind. eapply wp_bind_val; [exact Hd|].
    apply wp_ret. simpl. rewrite Hfatal. simpl. apply wp_bind.
    eapply wp_mono; [by apply final_commit_fails_spec|].
    intros r' w1 e1 [-> Hlog]. apply wp_ret.
    apply wp_bind.
    eapply wp_mono;
      [by apply (write_report_spec (λ _, True) closed_under_driver_True)|].
    intros rep w2 e2 (_ & Hrep & Hlist). apply wp_ret.
    exists rep. rewrite Hlist, Hrep. simpl. split_and!; try done.
    - destruct Hlog as [(lvl & line & Hlog)|(lvl & line & Hlog)];
        [left|right]; exists lvl, line; set_solver.
    - set_solver. }
  apply wp_elim in Hwp as (out & Hval & rep & -> & Hrest).
  exists rep. split; [exact Hval|]. exact Hrest.
Qed.

End Claims.

(** ** Runs on the simulated environment *)

Section Runs.
Import Sim.

Lemma outcome_lists_partition_witness :
  ∃ ret rep,
    val (execute_sql_scripts_in_dir three_files (Some 0%nat) params "d"
           "per-file-until-error" (start [] ["BAD"] [] false))
      = inr (ret, Some rep)
    ∧ (¬ gate_fires three_files "d" "per-file-until-error" →
       partitions (final_results rep) (discovered three_files "d"))
    ∧ (gate_fires three_files "d" "per-file-until-error" →
       errors (final_results rep) =
         natsorted (collect_file_paths three_files "d" ".sql").2
       ∧ processed (final_results rep) = []
       ∧ empty_files (final_results rep) = []
       ∧ fatal_error_occurred (final_results rep) = true).
Proof.
  apply (outcome_lists_partition three_files).
  apply (bool_decide_unpack _ (dec := NoDup_dec (A:=string) _)).
  vm_compute. exact I.
Defined.

(** C1, counterexample.  In all-or-nothing mode, with one valid file
    and one anomaly, the run reaches the report step with the anomaly
    in [errors] and the valid file in none of the four lists. *)
Lemma anomaly_gate_breaks_partition :
  ∃ ret rep,
    val (execute_sql_scripts_in_dir with_anomaly (Some 0%nat) params "d"
           "all-or-nothing" (start [] [] [] false)) = inr (ret, Some rep)
    ∧ discovered with_anomaly "d" = ["d/1.sql"]
    ∧ processed (final_results rep) ++ errors (final_results rep)
        ++ empty_files (final_results rep)
        ++ unprocessed_files (final_results rep) = ["d/x.sql"]
    ∧ ¬ partitions (final_results rep) (discovered with_anomaly "d").
Proof.
  do 2 eexists. split; [by vm_compute|]. split; [by vm_compute|].
  split; [by vm_compute|].
  intros [Hp _]. vm_compute in Hp.
  apply Permutation_singleton_l in Hp. discriminate Hp.
Qed.


Lemma anomaly_gate_witness :
  ∃ rep,
    execute_sql_scripts_in_dir with_anomaly (Some 0%nat) params "d"
      "per-file-until-error" (start [] [] [] false)
    = Out (inr (RetResults (final_results rep), Some rep))
        (start [] [] [] false) []
    ∧ fatal_error_occurred (final_results rep) = true
    ∧ errors (final_results rep) = ["d/x.sql"].
Proof.
  assert (Hdir : is_dir with_anomaly "d" = inr true) by reflexivity.
  assert (Han : (collect_file_paths with_anomaly "d" ".sql").2 ≠ [])
    by (vm_compute; discriminate).
  destruct (anomaly_gate with_anomaly params "d" Hdir Han) as [Hhalt _].
  destruct (Hhalt "per-file-until-error") as [Hrun _].
  { apply list_elem_of_further, list_elem_of_here. }
  destruct (Hrun 0%nat (start [] [] [] false))
    as (rep & Hval & Hfatal & Herr & _).
  exists rep. split; [exact Hval|]. split; [exact Hfatal|].
  rewrite Herr. reflexivity.
Defined.

(** C3, counterexample.  In all-or-nothing mode, with an anomaly in the
    directory, the run makes a connection attempt all the same: the
    entry point connects before the orchestrator scans. *)
Lemma connection_attempt_despite_anomalies :
  gate_fires with_anomaly "d" "all-or-nothing"
  ∧ main with_anomaly params "d" "all-or-nothing" (boot [] [] [] false)
    = Out (inr 1)
        (set_closed 0%nat
           (World [] 1 [] (λ _, 0) [] [] [] [] false))
        [EvConnect (inr 0%nat); EvClose 0%nat (inr tt)]
  ∧ EvConnect (inr 0%nat)
      ∈ events (main with_anomaly params "d" "all-or-nothing"
                  (boot [] [] [] false)).
Proof.
  split; [|split].
  - split; [reflexivity|]. split; [by vm_compute|].
    apply list_elem_of_here.
  - reflexivity.
  - apply list_elem_of_here.
Qed.

Lemma empty_directory_exits_1_witness :
  val (main empty_dir params "d" "per-file" (boot [] [] [] false)) = inr 1.
Proof.
  assert (Hdir : is_dir empty_dir "d" = inr true) by reflexivity.
  assert (Hscan : collect_file_paths empty_dir "d" ".sql" = ([], []))
    by reflexivity.
  destruct (empty_directory_exits_1 empty_dir params "d" "per-file"
              Hdir Hscan) as [_ Hmain].
  destruct (Hmain (boot [] [] [] false)) as [Hexit _].
  exact Hexit.
Defined.

End Runs.

(** * Further properties *)

Section Effects.
Context {W : Type} `{!Driver W}.
Local Abbreviation E := (eff W).

Lemma emits_mono {A} (P Q : event → Prop) (m : E A) :
  (∀ ev, P ev → Q ev) → emits P m → emits Q m.
Proof. intros HPQ Hm w. eapply Forall_impl; [apply Hm|done]. Qed.

Lemma emits_ret {A} P (a : A) : emits P (ret a : E A).
Proof. intros w. constructor. Qed.

Lemma emits_raise {A} P e : emits P (raise e : E A).
Proof. intros w. constructor. Qed.

Lemma emits_lift {A} P (r : exn + A) : emits P (lift r : E A).
Proof. intros w. constructor. Qed.

Lemma emits_look {A} P (f : W → A) : emits P (look f).
Proof. intros w. constructor. Qed.

Lemma emits_ask {A} P (f : W → exn + A) : emits P (ask f).
Proof. intros w. constructor. Qed.

Lemma emits_emit (P : event → Prop) ev : P ev → emits P (emit ev : E unit).
Proof. intros Hev w. by repeat constructor. Qed.

Lemma emits_call {A} (P : event → Prop) (f : W → reply W A)
    (ev : exn + A → event) :
  (∀ r, P (ev r)) → emits P (call f ev).
Proof. intros Hev w. rewrite call_eq. by repeat constructor. Qed.

Lemma emits_bind {A B} P (m : E A) (k : A → E B) :
  emits P m → (∀ a, emits P (k a)) → emits P (bind m k).
Proof.
  intros Hm Hk w. unfold bind. destruct (val (m w)) as [e|a]; simpl.
  - apply Hm.
  - apply Forall_app. split; [apply Hm|apply Hk].
Qed.

Lemma emits_try_except {A} P (m : E A) (h : exn → E A) :
  emits P m → (∀ e, emits P (h e)) → emits P (try_except m h).
Proof.
  intros Hm Hh w. unfold try_except. destruct (val (m w)) as [e|a]; simpl.
  - apply Forall_app. split; [apply Hm|apply Hh].
  - apply Hm.
Qed.

Lemma emits_try_finally {A} P (m : E A) (fin : E unit) :
  emits P m → emits P fin → emits P (try_finally m fin).
Proof.
  intros Hm Hf w. unfold try_finally. simpl.
  apply Forall_app. split; [apply Hm|apply Hf].
Qed.

Lemma emits_outcome_of {A} P (m : E A) : emits P m → emits P (outcome_of m).
Proof. intros Hm w. apply Hm. Qed.

End Effects.

(** ** The scan *)

Section Scan.
Variable fs : filesystem.






Lemma collect_entry_fold ext current_dir names found :
  let seen := joinpath current_dir
                <$> filter (λ f, endswith f ext = true) names in
  foldl (collect_entry fs ext current_dir) found names =
  (found.1 ++ filter (regular fs) seen,
   found.2 ++ filter (λ p, ¬ regular fs p) seen).
Proof.
  revert found. induction names as [|f names IH]; intros [found1 found2] seen.
  { simpl. by rewrite !app_nil_r. }
  subst seen. simpl foldl. rewrite IH. unfold collect_entry. simpl.
  destruct (endswith f ext) eqn:Hf.
  - rewrite filter_cons_True by done. rewrite fmap_cons.
    unfold regular at 1 3.
    destruct (is_file fs (joinpath current_dir f)) as [e|[|]] eqn:Hreg; simpl.
    + rewrite filter_cons_False by (unfold regular; congruence).
      rewrite filter_cons_True by (unfold regular; congruence).
      by rewrite <- app_assoc.
    + rewrite filter_cons_True by done.
      rewrite filter_cons_False by (unfold regular; intros Hn; by apply Hn).
      by rewrite <- app_assoc.
    + rewrite filter_cons_False by (unfold regular; congruence).
      rewrite filter_cons_True by (unfold regular; congruence).
      by rewrite <- app_assoc.
  - rewrite filter_cons_False by congruence. done.
Qed.

Lemma collect_walk_fold ext entries found :
  let seen := mjoin ((λ entry : path * list string,
                        joinpath entry.1
                          <$> filter (λ f, endswith f ext = true) entry.2)
                       <$> entries) in
  foldl (λ found entry, foldl (collect_entry fs ext entry.1) found entry.2)
    found entries =
  (found.1 ++ filter (regular fs) seen,
   found.2 ++ filter (λ p, ¬ regular fs p) seen).
Proof.
  revert found. induction entries as [|[root names] entries IH];
    intros [found1 found2] seen.
  { simpl. by rewrite !app_nil_r. }
  subst seen. simpl foldl. rewrite IH, collect_entry_fold. simpl.
  by rewrite !filter_app, <- !app_assoc.
Qed.

(** X1.  The scan sorts every candidate, in the order of the walk, into
    one of its two lists: into [files_found] when [is_file] answers
    [True], into [anomalies] in every other case, an exception of
    [is_file] included.  So the two lists share no path and hold all
    the candidates between them. *)
Theorem collect_file_paths_classifies dir_path ext :
  let found := collect_file_paths fs dir_path ext in
  found.1 = filter (regular fs) (candidates fs dir_path ext)
  ∧ found.2 = filter (λ p, ¬ regular fs p) (candidates fs dir_path ext)
  ∧ found.1 ++ found.2 ≡ₚ candidates fs dir_path ext
  ∧ (∀ p, p ∈ found.1 → p ∉ found.2).
Proof.
  intros found. subst found. unfold collect_file_paths.
  rewrite collect_walk_fold. simpl. fold (candidates fs dir_path ext).
  split_and!; try done.
  - apply filter_app_complement.
  - intros p Hp Hn.
    apply list_elem_of_filter in Hp as [Hp _].
    apply list_elem_of_filter in Hn as [Hn _]. done.
Qed.


End Scan.

(** ** What a run does and does not do *)

Section Footprints.
Context {W : Type} `{!Driver W}.
Variable fs : filesystem.

Lemma harmless_run_event files ev : harmless ev → run_event fs files ev.
Proof. by destruct ev. Qed.

Lemma harmless_all_or_nothing_event files k ev :
  harmless ev → all_or_nothing_event fs files k ev.
Proof. by destruct ev. Qed.

Lemma connect_db_from_emits params attempt_limit delay attempt todo :
  emits (λ ev, match ev with
               | EvConnect _ => True
               | EvSleep d => d = delay
               | _ => False
               end)
    (connect_db_from params attempt_limit delay attempt todo).
Proof.
  revert attempt. induction todo as [|todo IH]; intros attempt; simpl.
  { apply emits_ret. }
  apply emits_bind; [by apply emits_outcome_of, emits_call|].
  intros [e|c]; [|apply emits_ret].
  destruct (is_OperationalError e); [|apply emits_ret].
  apply emits_bind; [|intros _; apply IH].
  destruct (attempt <? attempt_limit); [by apply emits_call|apply emits_ret].
Qed.

Lemma ensure_connection_emits current_conn params :
  emits harmless (_ensure_connection current_conn params).
Proof.
  unfold _ensure_connection. apply emits_bind.
  { destruct current_conn; [|apply emits_ret].
    apply emits_bind; [apply emits_look|intros; apply emits_ret]. }
  intros [|]; [apply emits_ret|].
  eapply emits_mono; [|apply connect_db_from_emits]. by intros [].
Qed.

Lemma attempt_rollback_emits conn context_msg :
  emits harmless (_attempt_rollback conn context_msg).
Proof.
  unfold _attempt_rollback, log_rollback. apply emits_try_except.
  - apply emits_bind.
    { destruct conn; [|apply emits_ret].
      apply emits_bind; [apply emits_look|intros; apply emits_ret]. }
    intros usable. destruct conn as [c|]; [|by apply emits_emit].
    destruct usable; [|by apply emits_emit].
    apply emits_bind; [apply emits_ask|]. intros status.
    destruct ((status =? TRANSACTION_STATUS_INTRANS) || (status =? 3));
      [|by apply emits_emit].
    apply emits_bind; [by apply emits_emit|]. intros _.
    apply emits_bind; [by apply emits_call|]. intros _. by apply emits_emit.
  - intros e. destruct (is_psycopg2_Error e); by apply emits_emit.
Qed.

Lemma close_cursor_emits k :
  emits (λ ev, match ev with EvCursorClose _ _ => True | _ => False end)
    (close_cursor k).
Proof.
  unfold close_cursor. destruct k as [k|]; [|apply emits_ret].
  apply emits_bind; [apply emits_look|]. intros [|]; [apply emits_ret|].
  apply emits_try_except; [by apply emits_call|intros; apply emits_ret].
Qed.

Lemma bind_outcome_of {A B} (m : eff W A) (K : exn + A → eff W B) w :
  bind (outcome_of m) K w =
  Out (val (K (val (m w)) (world (m w))))
    (world (K (val (m w)) (world (m w))))
    (events (m w) ++ events (K (val (m w)) (world (m w)))).
Proof. done. Qed.

Lemma bind_read_sql_file {B} p (K : exn + option string → eff W B) w :
  (let* r := outcome_of (_read_sql_file fs p) in K r) w =
  K (match read_text fs p with
     | inl e => inl e
     | inr s => inr (if blank s then None else Some s)
     end) w.
Proof.
  unfold bind, outcome_of. rewrite read_sql_file_val. simpl.
  by destruct (K _ w).
Qed.

Lemma per_file_try_emits files c k p mode :
  p ∈ files → emits (run_event fs files) (per_file_try fs c k p mode).
Proof.
  intros Hp w. unfold per_file_try. rewrite bind_read_sql_file.
  destruct (read_text fs p) as [e|s] eqn:Hread; [constructor|].
  destruct (blank s) eqn:Hblank; [constructor|].
  assert (Hscript : script_of fs files s) by by exists p.
  revert w. apply emits_bind.
  { eapply emits_mono; [|apply close_cursor_emits]. by intros []. }
  intros _. apply emits_bind; [by apply emits_outcome_of, emits_call|].
  intros [e|k']; [apply emits_ret|].
  apply emits_bind; [|intros; apply emits_ret].
  apply emits_outcome_of, emits_bind; [by apply emits_call|].
  intros _. apply emits_bind; [by apply emits_call|intros; apply emits_ret].
Qed.

Lemma run_event_mono files files' ev :
  (∀ p, p ∈ files → p ∈ files') →
  run_event fs files ev → run_event fs files' ev.
Proof.
  intros Hsub. destruct ev; simpl; try done.
  intros (p & Hp & Hs). exists p. split; [by apply Hsub|done].
Qed.

Lemma per_file_loop_emits params files v :
  emits (run_event fs files) (per_file_loop fs params files v).
Proof.
  revert v. induction files as [|p rest IH]; intros v; simpl.
  { apply emits_ret. }
  apply emits_bind.
  { eapply emits_mono; [|apply ensure_connection_emits].
    apply harmless_run_event. }
  intros [c|]; [|apply emits_ret].
  apply emits_bind; [apply per_file_try_emits; by left|].
  intros [k r]. apply emits_bind.
  - apply emits_try_finally.
    + destruct r as [e|[|]]; try apply emits_ret.
      destruct (is_file_error e); [apply emits_ret|].
      destruct (is_psycopg2_Error e).
      all: apply emits_bind; [|intros; apply emits_ret].
      all: eapply emits_mono; [|apply attempt_rollback_emits].
      all: apply harmless_run_event.
    + eapply emits_mono; [|apply close_cursor_emits]. by intros [].
  - intros v'. eapply emits_mono; [|apply IH].
    intros ev. apply run_event_mono. intros q Hq. by right.
Qed.

Lemma per_file_until_error_loop_emits params files v :
  emits (run_event fs files) (per_file_until_error_loop fs params files v).
Proof.
  revert v. induction files as [|p rest IH]; intros v; simpl.
  { apply emits_ret. }
  apply emits_bind.
  { eapply emits_mono; [|apply ensure_connection_emits].
    apply harmless_run_event. }
  intros [c|]; [|apply emits_ret].
  apply emits_bind; [apply per_file_try_emits; by left|].
  intros [k r]. apply emits_bind.
  - apply emits_try_finally.
    + destruct r as [e|[|]]; try apply emits_ret.
      apply emits_bind; [|intros; apply emits_ret].
      eapply emits_mono; [|apply attempt_rollback_emits].
      apply harmless_run_event.
    + eapply emits_mono; [|apply close_cursor_emits]. by intros [].
  - intros [[|] v']; [|apply emits_ret].
    eapply emits_mono; [|apply IH].
    intros ev. apply run_event_mono. intros q Hq. by right.
Qed.

Lemma all_or_nothing_event_mono files files' k ev :
  (∀ p, p ∈ files → p ∈ files') →
  all_or_nothing_event fs files k ev → all_or_nothing_event fs files' k ev.
Proof.
  intros Hsub. destruct ev; simpl; try done.
  intros (-> & p & Hp & Hs). split; [done|].
  exists p. split; [by apply Hsub|done].
Qed.

Lemma all_or_nothing_loop_emits params k files v :
  emits (all_or_nothing_event fs files k)
    (all_or_nothing_loop fs params k files v).
Proof.
  revert v. induction files as [|p rest IH]; intros v; simpl.
  { apply emits_ret. }
  assert (Hnext : ∀ v', emits (all_or_nothing_event fs (p :: rest) k)
                          (all_or_nothing_loop fs params k rest v')).
  { intros v'. eapply emits_mono; [|apply IH].
    intros ev. apply all_or_nothing_event_mono. intros q Hq. by right. }
  assert (Hrb : ∀ conn msg (v' : results),
            emits (all_or_nothing_event fs (p :: rest) k)
              (do* _attempt_rollback conn msg in ret v')).
  { intros conn msg v'. apply emits_bind; [|intros; apply emits_ret].
    eapply emits_mono; [|apply attempt_rollback_emits].
    apply harmless_all_or_nothing_event. }
  apply emits_bind.
  { eapply emits_mono; [|apply ensure_connection_emits].
    apply harmless_all_or_nothing_event. }
  intros [c|]; [|apply Hrb].
  intros w. rewrite bind_outcome_of, all_or_nothing_try_val.
  destruct (read_text fs p) as [e|s] eqn:Hread; simpl.
  { apply Hrb. }
  destruct (blank s) eqn:Hblank; simpl.
  { apply Hnext. }
  assert (Hscript : script_of fs (p :: rest) s)
    by (exists p; by split; [left|]).
  constructor; [done|].
  destruct (cursor_execute k s w) as [[e|[]] w']; simpl;
    [apply Hrb|apply Hnext].
Qed.

Lemma try_except_inl {A} (m : eff W A) (h : exn → eff W A) w e :
  val (m w) = inl e →
  try_except m h w =
  Out (val (h e (world (m w)))) (world (h e (world (m w))))
    (events (m w) ++ events (h e (world (m w)))).
Proof. unfold try_except. by intros ->. Qed.

Lemma try_except_inr {A} (m : eff W A) (h : exn → eff W A) w a :
  val (m w) = inr a → try_except m h w = m w.
Proof. unfold try_except. by intros ->. Qed.

(** X3.  The all-or-nothing workflow always returns its dictionary.  It
    opens its cursor once, before anything else, and hands that cursor
    back; every script it executes goes through that cursor and is the
    non-blank content of one of the files; it never commits and never
    closes a cursor or the connection.  When the cursor cannot be
    opened, or there is no connection, nothing is executed at all. *)
Theorem all_or_nothing_footprint conn params files w :
  let run := _process_all_or_nothing fs conn params files w in
  ∃ d, val run = inr d
       ∧ match conn with
         | None => cursor d = None ∧ Forall harmless (events run)
         | Some c =>
             ∃ opened rest,
               events run = EvCursor c opened :: rest
               ∧ match opened with
                 | inl _ => cursor d = None ∧ Forall harmless rest
                 | inr k =>
                     cursor d = Some k
                     ∧ Forall (all_or_nothing_event fs files k) rest
                 end
         end.
Proof.
  intros run. subst run. unfold _process_all_or_nothing.
  assert (Hsetup : ∀ w1,
            ∃ d, val ((do* _attempt_rollback conn "transaction setup error" in
                       ret (set_failed_all_or_nothing
                              (set_fatal_error_occurred
                                 (initial_results conn)))) w1) = inr d
                 ∧ cursor d = None).
  { intros w1. eexists. erewrite bind_inr by apply attempt_rollback_returns.
    simpl. done. }
  assert (Hquiet : emits harmless
            (do* _attempt_rollback conn "transaction setup error" in
             ret (set_failed_all_or_nothing
                    (set_fatal_error_occurred (initial_results conn))))).
  { apply emits_bind; [apply attempt_rollback_emits|intros; apply emits_ret]. }
  destruct conn as [c|].
  2:{ rewrite (try_except_inl _ _ _ OtherException) by done. simpl.
      destruct (Hsetup w) as (d & Hd & Hk). exists d.
      split; [done|]. split; [done|]. exact (Hquiet w). }
  match goal with |- context [try_except ?b _] => set (body := b) end.
  destruct (conn_cursor c w) as [[e|k] w1] eqn:Hc.
  - assert (Hbody : body w = Out (inl e) w1 [EvCursor c (inl e)]).
    { subst body. rewrite (bind_inl _ _ _ e) by (by rewrite call_eq, Hc).
      by rewrite call_eq, Hc. }
    rewrite (try_except_inl _ _ _ e) by (by rewrite Hbody).
    rewrite Hbody. simpl.
    destruct (Hsetup w1) as (d & Hd & Hk). exists d.
    split; [done|]. exists (inl e). eexists. split; [done|].
    split; [done|]. exact (Hquiet w1).
  - pose proof (all_or_nothing_loop_spec fs (λ _, True)
                  closed_under_driver_True params k files
                  (set_cursor (Some k) (initial_results (Some c))) w1 I)
      as Hloop.
    apply wp_elim in Hloop as (d & Hd & _ & _ & Hk).
    set (loop := all_or_nothing_loop fs params k files
                   (set_cursor (Some k) (initial_results (Some c))) w1) in *.
    assert (Hbody : body w = Out (inr d) (world loop)
                               (EvCursor c (inr k) :: events loop)).
    { subst body. rewrite (bind_inr _ _ _ k) by (by rewrite call_eq, Hc).
      rewrite call_eq, Hc. simpl. fold loop. by rewrite Hd. }
    rewrite (try_except_inr _ _ _ d) by (by rewrite Hbody).
    rewrite Hbody. simpl. exists d. split; [done|].
    exists (inr k). eexists. split; [done|]. split; [done|].
    apply all_or_nothing_loop_emits.
Qed.

Lemma all_or_nothing_run_event files k ev :
  all_or_nothing_event fs files k ev → run_event fs files ev.
Proof. destruct ev; simpl; try done. by intros [_ ?]. Qed.

Lemma process_per_file_emits conn params files :
  emits (run_event fs files) (_process_per_file fs conn params files).
Proof.
  apply emits_bind; [apply per_file_loop_emits|intros; apply emits_ret].
Qed.

Lemma process_per_file_until_error_emits conn params files :
  emits (run_event fs files)
    (_process_per_file_until_error fs conn params files).
Proof.
  apply emits_bind;
    [apply per_file_until_error_loop_emits|intros; apply emits_ret].
Qed.

Lemma process_all_or_nothing_emits conn params files :
  emits (run_event fs files) (_process_all_or_nothing fs conn params files).
Proof.
  apply emits_try_except.
  - apply emits_bind.
    + destruct conn; [by apply emits_call|apply emits_raise].
    + intros k. eapply emits_mono; [|apply all_or_nothing_loop_emits].
      apply all_or_nothing_run_event.
  - intros e. apply emits_bind; [|intros; apply emits_ret].
    eapply emits_mono; [|apply attempt_rollback_emits].
    apply harmless_run_event.
Qed.

Lemma final_commit_emits files conn r :
  emits (run_event fs files) (final_commit conn r).
Proof.
  unfold final_commit. apply emits_bind.
  { destruct conn; [|apply emits_ret].
    apply emits_bind; [apply emits_look|intros; apply emits_ret]. }
  intros usable. apply emits_bind.
  { apply emits_outcome_of. destruct conn; [|apply emits_raise].
    destruct usable; [by apply emits_call|apply emits_raise]. }
  intros [e|[]]; [|apply emits_ret].
  apply emits_bind; [|intros; apply emits_ret].
  eapply emits_mono; [|apply attempt_rollback_emits].
  apply harmless_run_event.
Qed.

Lemma orchestration_error_emits files conn r sorted_sql_files :
  emits (run_event fs files) (orchestration_error conn r sorted_sql_files).
Proof.
  apply emits_bind; [|intros; apply emits_ret].
  eapply emits_mono; [|apply attempt_rollback_emits].
  apply harmless_run_event.
Qed.

Lemma write_report_emits files r sorted_sql_files :
  emits (run_event fs files) (write_report r sorted_sql_files).
Proof.
  apply emits_bind; [|intros; apply emits_ret].
  eapply emits_mono; [|apply close_cursor_emits]. by intros [].
Qed.

Lemma bind_lift_inr {A B} (a : A) (K : A → eff W B) w :
  bind (lift (inr a)) K w = K a w.
Proof. unfold bind, lift. simpl. by destruct (K a w). Qed.

Lemma events_try_except {A} P (m : eff W A) (h : exn → eff W A) w :
  Forall P (events (m w)) → (∀ e, emits P (h e)) →
  Forall P (events (try_except m h w)).
Proof.
  intros Hm Hh. unfold try_except. destruct (val (m w)) as [e|a]; simpl.
  - apply Forall_app. split; [done|apply Hh].
  - done.
Qed.

Lemma orchestrate_emits conn params sql_dir transaction_mode :
  emits (run_event fs (discovered fs sql_dir))
    (orchestrate fs conn params sql_dir transaction_mode).
Proof.
  intros w. unfold orchestrate.
  apply events_try_except; [|intros; apply orchestration_error_emits].
  unfold discovered.
  destruct (is_dir fs sql_dir) as [e|[|]] eqn:Hdir.
  { rewrite (bind_inl _ _ _ e) by done. constructor. }
  2:{ rewrite bind_lift_inr. constructor. }
  rewrite bind_lift_inr. simpl negb. cbv iota.
  set (paths_found := collect_file_paths fs sql_dir ".sql").
  destruct (bool_decide (paths_found.2 ≠ []) && _); [constructor|].
  rewrite fmap_as_posix.
  pose proof (natsorted_Permutation paths_found.1) as Hperm.
  destruct (natsorted paths_found.1) as [|p sorted]; [constructor|].
  assert (Hmono : ∀ ev, run_event fs (p :: sorted) ev →
                        run_event fs paths_found.1 ev).
  { intros ev. apply run_event_mono. intros q Hq. by rewrite <- Hperm. }
  revert w. apply emits_try_except;
    [|intros; apply orchestration_error_emits].
  apply emits_bind.
  - destruct (String.eqb transaction_mode "per-file");
      [|destruct (String.eqb transaction_mode "per-file-until-error");
        [|destruct (String.eqb transaction_mode "all-or-nothing")]].
    + apply emits_bind; [|intros; apply emits_ret].
      eapply emits_mono; [exact Hmono|apply process_per_file_emits].
    + apply emits_bind; [|intros; apply emits_ret].
      eapply emits_mono;
        [exact Hmono|apply process_per_file_until_error_emits].
    + apply emits_bind; [|intros; apply emits_ret].
      eapply emits_mono; [exact Hmono|apply process_all_or_nothing_emits].
    + apply emits_ret.
  - intros [d|]; [|apply emits_ret].
    apply emits_bind; [|intros; apply emits_ret].
    destruct (String.eqb transaction_mode "all-or-nothing");
      [|apply emits_ret].
    destruct (negb _); [apply final_commit_emits|apply emits_ret].
Qed.

(** X4.  Whatever the mode, the connection and the world, every script
    that a run of the orchestrator executes is the text, not blank, of
    a valid file that the scan discovered; the run does not close the
    connection; and where it waits between connection attempts it
    waits three seconds. *)
Theorem run_footprint conn params sql_dir transaction_mode w :
  Forall (run_event fs (discovered fs sql_dir))
    (events (execute_sql_scripts_in_dir fs conn params sql_dir
               transaction_mode w)).
Proof.
  revert w. unfold execute_sql_scripts_in_dir.
  destruct conn as [c|]; [|apply emits_ret].
  apply emits_bind; [apply orchestrate_emits|].
  intros [[returned r] sorted_sql_files].
  apply emits_bind; [apply write_report_emits|intros; apply emits_ret].
Qed.

End Footprints.


(** ** What the flags and the error list tell *)

Section Outcomes.
Context {W : Type} `{!Driver W}.
Variable fs : filesystem.

Local Abbreviation any := (λ _ : W, True).

Lemma per_file_loop_flags params files v w :
  wp (per_file_loop fs params files v) w
    (λ v' _ _,
       failed_all_or_nothing v' = failed_all_or_nothing v
       ∧ ((fatal_error_occurred v' = fatal_error_occurred v
           ∧ viewed v' ≡ₚ viewed v ++ files)
          ∨ (fatal_error_occurred v' = true ∧ connection v' = None))).
Proof.
  revert v w. induction files as [|p rest IH]; intros v w; simpl.
  { apply wp_ret. split; [done|]. left. by rewrite app_nil_r. }
  apply wp_bind.
  eapply wp_mono;
    [by apply (ensure_connection_spec any closed_under_driver_True)|].
  intros [c|] w1 e1 _; simpl.
  2:{ apply wp_ret. split; [done|]. by right. }
  apply wp_bind.
  eapply wp_mono;
    [by apply (per_file_try_spec fs any closed_under_driver_True)|].
  intros [k r] w2 e2 _; simpl.
  apply wp_bind, wp_try_finally.
  assert (Hgo : ∀ v1 w3,
            viewed v1 ≡ₚ viewed v ++ [p] →
            failed_all_or_nothing v1 = failed_all_or_nothing v →
            fatal_error_occurred v1 = fatal_error_occurred v →
            wp (close_cursor k) w3
              (λ _ w4 _,
                 wp (per_file_loop fs params rest v1) w4
                   (λ v' _ _,
                      failed_all_or_nothing v' = failed_all_or_nothing v
                      ∧ ((fatal_error_occurred v' = fatal_error_occurred v
                          ∧ viewed v' ≡ₚ viewed v ++ p :: rest)
                         ∨ (fatal_error_occurred v' = true
                            ∧ connection v' = None))))).
  { intros v1 w3 Hv Hf Hfat.
    eapply wp_mono; [by apply (close_cursor_spec any closed_under_driver_True)|].
    intros [] w4 e4 _.
    eapply wp_mono; [apply IH|].
    intros v' w5 e5 (Hf' & Hcase). split; [congruence|].
    destruct Hcase as [[Hfat' Hv']|?]; [left|by right].
    split; [congruence|]. rewrite Hv', Hv.
    by rewrite <- app_assoc. }
  destruct r as [e|[|]].
  - destruct (is_file_error e); [|destruct (is_psycopg2_Error e)].
    + apply wp_ret. apply Hgo; try done. by apply viewed_errors.
    + apply wp_bind.
      eapply wp_mono;
        [by apply (attempt_rollback_spec any closed_under_driver_True)|].
      intros [] w3 e3 _. apply wp_ret.
      apply Hgo; try done. by apply viewed_errors.
    + apply wp_bind.
      eapply wp_mono;
        [by apply (attempt_rollback_spec any closed_under_driver_True)|].
      intros [] w3 e3 _. apply wp_ret.
      apply Hgo; try done. by apply viewed_errors.
  - apply wp_ret. apply Hgo; try done. by apply viewed_empty_files.
  - apply wp_ret. apply Hgo; try done. by apply viewed_processed.
Qed.

(** Either the loop went through all its files without an error, or it
    stopped at one of them, which it put last in [errors], and marked
    the run fatal. *)
Lemma per_file_until_error_loop_flags params files v w :
  wp (per_file_until_error_loop fs params files v) w
    (λ v' _ _,
       failed_all_or_nothing v' = failed_all_or_nothing v
       ∧ ((fatal_error_occurred v' = fatal_error_occurred v
           ∧ errors v' = errors v
           ∧ viewed v' ≡ₚ viewed v ++ files)
          ∨ (fatal_error_occurred v' = true
             ∧ ∃ p, p ∈ files ∧ errors v' = errors v ++ [p]))).
Proof.
  revert v w. induction files as [|p rest IH]; intros v w; simpl.
  { apply wp_ret. split; [done|]. left. by rewrite app_nil_r. }
  apply wp_bind.
  eapply wp_mono;
    [by apply (ensure_connection_spec any closed_under_driver_True)|].
  intros [c|] w1 e1 _; simpl.
  2:{ apply wp_ret. split; [done|]. right. split; [done|].
      exists p. split; [by left|done]. }
  apply wp_bind.
  eapply wp_mono;
    [by apply (per_file_try_spec fs any closed_under_driver_True)|].
  intros [k r] w2 e2 _; simpl.
  apply wp_bind, wp_try_finally.
  assert (Hgo : ∀ v1 w3,
            viewed v1 ≡ₚ viewed v ++ [p] →
            errors v1 = errors v →
            failed_all_or_nothing v1 = failed_all_or_nothing v →
            fatal_error_occurred v1 = fatal_error_occurred v →
            wp (close_cursor k) w3
              (λ _ w4 _,
                 wp (per_file_until_error_loop fs params rest v1) w4
                   (λ v' _ _,
                      failed_all_or_nothing v' = failed_all_or_nothing v
                      ∧ ((fatal_error_occurred v' = fatal_error_occurred v
                          ∧ errors v' = errors v
                          ∧ viewed v' ≡ₚ viewed v ++ p :: rest)
                         ∨ (fatal_error_occurred v' = true
                            ∧ ∃ q, q ∈ p :: rest
                                   ∧ errors v' = errors v ++ [q]))))).
  { intros v1 w3 Hv He Hf Hfat.
    eapply wp_mono; [by apply (close_cursor_spec any closed_under_driver_True)|].
    intros [] w4 e4 _.
    eapply wp_mono; [apply IH|].
    intros v' w5 e5 (Hf' & Hcase). split; [congruence|].
    destruct Hcase as [(Hfat' & He' & Hv')|(Hfat' & q & Hq & He')].
    - left. split_and!; [congruence|congruence|].
      rewrite Hv', Hv. by rewrite <- app_assoc.
    - right. split; [done|]. exists q. split; [by right|congruence]. }
  destruct r as [e|[|]].
  - apply wp_bind.
    eapply wp_mono;
      [by apply (attempt_rollback_spec any closed_under_driver_True)|].
    intros [] w3 e3 _. apply wp_ret.
    eapply wp_mono; [by apply (close_cursor_spec any closed_under_driver_True)|].
    intros [] w4 e4 _. apply wp_ret. split; [done|]. right.
    split; [done|]. exists p. split; [by left|done].
  - apply wp_ret. apply Hgo; try done. by apply viewed_empty_files.
  - apply wp_ret. apply Hgo; try done. by apply viewed_processed.
Qed.

Lemma all_or_nothing_loop_flags params k files v w :
  wp (all_or_nothing_loop fs params k files v) w
    (λ v' _ _,
       (fatal_error_occurred v' = fatal_error_occurred v
        ∧ failed_all_or_nothing v' = failed_all_or_nothing v
        ∧ errors v' = errors v
        ∧ viewed v' ≡ₚ viewed v ++ files)
       ∨ (fatal_error_occurred v' = true
          ∧ failed_all_or_nothing v' = true
          ∧ ∃ p, p ∈ files ∧ errors v' = errors v ++ [p])).
Proof.
  revert v w. induction files as [|p rest IH]; intros v w; simpl.
  { apply wp_ret. left. by rewrite app_nil_r. }
  assert (Hstop : ∀ conn msg w1 v1,
            errors v1 = errors v ++ [p] →
            wp (do* _attempt_rollback conn msg in
                ret (set_failed_all_or_nothing
                       (set_fatal_error_occurred v1))) w1
              (λ v' _ _,
                 (fatal_error_occurred v' = fatal_error_occurred v
                  ∧ failed_all_or_nothing v' = failed_all_or_nothing v
                  ∧ errors v' = errors v
                  ∧ viewed v' ≡ₚ viewed v ++ p :: rest)
                 ∨ (fatal_error_occurred v' = true
                    ∧ failed_all_or_nothing v' = true
                    ∧ ∃ q, q ∈ p :: rest ∧ errors v' = errors v ++ [q]))).
  { intros conn msg w1 v1 He. apply wp_bind.
    eapply wp_mono;
      [by apply (attempt_rollback_spec any closed_under_driver_True)|].
    intros [] w2 e2 _. apply wp_ret. right. split_and!; try done.
    exists p. split; [by left|done]. }
  assert (Hgo : ∀ v1 w3,
            viewed v1 ≡ₚ viewed v ++ [p] →
            errors v1 = errors v →
            failed_all_or_nothing v1 = failed_all_or_nothing v →
            fatal_error_occurred v1 = fatal_error_occurred v →
            wp (all_or_nothing_loop fs params k rest v1) w3
              (λ v' _ _,
                 (fatal_error_occurred v' = fatal_error_occurred v
                  ∧ failed_all_or_nothing v' = failed_all_or_nothing v
                  ∧ errors v' = errors v
                  ∧ viewed v' ≡ₚ viewed v ++ p :: rest)
                 ∨ (fatal_error_occurred v' = true
                    ∧ failed_all_or_nothing v' = true
                    ∧ ∃ q, q ∈ p :: rest ∧ errors v' = errors v ++ [q]))).
  { intros v1 w3 Hv He Hf Hfat.
    eapply wp_mono; [apply IH|].
    intros v' w5 e5 Hcase.
    destruct Hcase as [(Hfat' & Hf' & He' & Hv')|(Hfat' & Hf' & q & Hq & He')].
    - left. split_and!; [congruence|congruence|congruence|].
      rewrite Hv', Hv. by rewrite <- app_assoc.
    - right. split_and!; try done.
      exists q. split; [by right|congruence]. }
  apply wp_bind.
  eapply wp_mono;
    [by apply (ensure_connection_spec any closed_under_driver_True)|].
  intros [c|] w1 e1 _; simpl.
  2:{ apply (Hstop None _ w1
               (append_errors p (set_connection None v))). done. }
  apply wp_bind, wp_outcome_of. rewrite all_or_nothing_try_val.
  destruct (read_text fs p) as [e|s]; simpl.
  { by apply (Hstop (Some c)). }
  destruct (blank s); simpl.
  { apply Hgo; try done. by apply viewed_empty_files. }
  destruct (cursor_execute k s w1) as [[e|[]] w2]; simpl.
  { by apply (Hstop (Some c)). }
  apply Hgo; try done. by apply viewed_processed.
Qed.

Lemma process_all_or_nothing_flags conn params files w :
  wp (_process_all_or_nothing fs conn params files) w
    (λ d _ _,
       failed_all_or_nothing d = fatal_error_occurred d
       ∧ (List.length (errors d) ≤ 1)%nat
       ∧ (∀ p, p ∈ errors d → p ∈ files)
       ∧ (errors d ≠ [] → fatal_error_occurred d = true)
       ∧ (fatal_error_occurred d = false →
          errors d = []
          ∧ processed d ++ empty_files d ≡ₚ files
          ∧ ∃ k, cursor d = Some k)).
Proof.
  pose (Post := λ d : results,
          failed_all_or_nothing d = fatal_error_occurred d
          ∧ (List.length (errors d) ≤ 1)%nat
          ∧ (∀ p, p ∈ errors d → p ∈ files)
          ∧ (errors d ≠ [] → fatal_error_occurred d = true)
          ∧ (fatal_error_occurred d = false →
             errors d = []
             ∧ processed d ++ empty_files d ≡ₚ files
             ∧ ∃ k, cursor d = Some k)).
  change (wp (_process_all_or_nothing fs conn params files) w
            (λ d _ _, Post d)).
  unfold _process_all_or_nothing. apply wp_try_except.
  assert (Hfail : ∀ w1,
            wp (do* _attempt_rollback conn "transaction setup error" in
                ret (set_failed_all_or_nothing
                       (set_fatal_error_occurred (initial_results conn)))) w1
              (λ d _ _, Post d)).
  { intros w1. apply wp_bind.
    eapply wp_mono;
      [by apply (attempt_rollback_spec any closed_under_driver_True)|].
    intros [] w2 e2 _. apply wp_ret. unfold Post. simpl.
    split_and!; try done.
    - lia.
    - set_solver. }
  destruct conn as [c|].
  2:{ rewrite (bind_inl _ _ _ OtherException) by done. apply Hfail. }
  destruct (conn_cursor c w) as [[e|k] w1] eqn:Hc.
  { rewrite (bind_inl _ _ _ e) by (by rewrite call_eq, Hc).
    rewrite call_eq, Hc. simpl. apply Hfail. }
  rewrite (bind_inr _ _ _ k) by (by rewrite call_eq, Hc).
  rewrite call_eq, Hc. simpl.
  set (v0 := set_cursor (Some k) (initial_results (Some c))).
  pose proof (all_or_nothing_loop_spec fs any closed_under_driver_True
                params k files v0 w1 I) as Hspec.
  pose proof (all_or_nothing_loop_flags params k files v0 w1) as Hflags.
  apply wp_elim in Hspec as (d & Hd & _ & _ & Hk).
  apply wp_elim in Hflags as (d' & Hd' & Hcase).
  assert (d' = d) by congruence. subst d'. rewrite Hd. unfold Post.
  destruct Hcase as [(Hfat & Hf & He & Hv)|(Hfat & Hf & p & Hp & He)].
  - simpl in *. rewrite Hfat, Hf, He. split_and!; try done.
    + simpl. lia.
    + set_solver.
    + intros _. split; [done|]. split; [|by exists k].
      unfold viewed in Hv. rewrite He in Hv. simpl in Hv. by rewrite <- Hv.
  - simpl in *. rewrite Hfat, Hf, He. split_and!; try done.
    intros q Hq. apply list_elem_of_singleton in Hq. by subst q.
Qed.

(** X5.  The all-or-nothing workflow always returns, with
    [failed_all_or_nothing] equal to [fatal_error_occurred].  Its
    [errors] holds at most one path, one of the files, and the run is
    then fatal.  When the run is not fatal there is no error, the
    cursor is handed back, and every file was either executed or found
    empty: [processed] and [empty_files] hold all of them. *)
Theorem all_or_nothing_flags conn params files w :
  ∃ d,
    val (_process_all_or_nothing fs conn params files w) = inr d
    ∧ failed_all_or_nothing d = fatal_error_occurred d
    ∧ (List.length (errors d) ≤ 1)%nat
    ∧ (∀ p, p ∈ errors d → p ∈ files)
    ∧ (errors d ≠ [] → fatal_error_occurred d = true)
    ∧ (fatal_error_occurred d = false →
       errors d = []
       ∧ processed d ++ empty_files d ≡ₚ files
       ∧ ∃ k, cursor d = Some k).
Proof.
  pose proof (process_all_or_nothing_flags conn params files w) as Hwp.
  apply wp_elim in Hwp as (d & Hd & HP). by exists d.
Qed.

Lemma final_commit_cases conn r w :
  wp (final_commit conn r) w
    (λ r' _ _,
       r' = r
       ∨ r' = set_failed_all_or_nothing (set_fatal_error_occurred r)).
Proof.
  unfold final_commit. apply wp_bind.
  assert (Hfail : ∀ msg w1,
            wp (do* _attempt_rollback conn msg in
                ret (set_failed_all_or_nothing (set_fatal_error_occurred r)))
              w1
              (λ r' _ _,
                 r' = r
                 ∨ r' = set_failed_all_or_nothing
                          (set_fatal_error_occurred r))).
  { intros msg w1. apply wp_bind.
    eapply wp_mono;
      [by apply (attempt_rollback_spec any closed_under_driver_True)|].
    intros [] w2 e2 _. apply wp_ret. by right. }
  destruct conn as [c|].
  2:{ apply wp_ret, wp_bind, wp_outcome_of. apply Hfail. }
  apply wp_bind, wp_look, wp_ret.
  destruct (conn_closed c w); simpl.
  { apply wp_bind, wp_outcome_of. apply Hfail. }
  apply wp_bind, wp_outcome_of_call.
  destruct (conn_commit c w) as [[e|[]] w1]; simpl.
  - apply Hfail.
  - apply wp_ret. by left.
Qed.

(** What the [try] of the orchestrator hands to the [finally] block. *)
Lemma orchestrate_outcome conn params sql_dir transaction_mode w :
  wp (orchestrate fs conn params sql_dir transaction_mode) w
    (λ out _ _,
       (failed_all_or_nothing out.1.2 = true →
        transaction_mode = "all-or-nothing"
        ∧ fatal_error_occurred out.1.2 = true)
       ∧ match out.1.1 with
         | RetBool _ => True
         | RetResults r =>
             r = out.1.2
             ∧ (fatal_error_occurred r = false →
                transaction_mode
                  ∈ ["per-file"; "per-file-until-error"; "all-or-nothing"]
                ∧ out.2 ≠ []
                ∧ out.2 ≡ₚ discovered fs sql_dir
                ∧ viewed r ≡ₚ out.2
                ∧ (transaction_mode ≠ "per-file" → errors r = []))
         end).
Proof.
  unfold orchestrate.
  assert (Herr : ∀ r sorted w1,
            failed_all_or_nothing r = false →
            wp (orchestration_error conn r sorted) w1
              (λ out _ _,
                 (failed_all_or_nothing out.1.2 = true →
                  transaction_mode = "all-or-nothing"
                  ∧ fatal_error_occurred out.1.2 = true)
                 ∧ match out.1.1 with
                   | RetBool _ => True
                   | RetResults r =>
                       r = out.1.2
                       ∧ (fatal_error_occurred r = false →
                          transaction_mode
                            ∈ ["per-file"; "per-file-until-error";
                               "all-or-nothing"]
                          ∧ out.2 ≠ []
                          ∧ out.2 ≡ₚ discovered fs sql_dir
                          ∧ viewed r ≡ₚ out.2
                          ∧ (transaction_mode ≠ "per-file" → errors r = []))
                   end)).
  { intros r sorted w1 Hf. unfold orchestration_error. apply wp_bind.
    eapply wp_mono;
      [by apply (attempt_rollback_spec any closed_under_driver_True)|].
    intros [] w2 e2 _. apply wp_ret. simpl. rewrite Hf.
    split; [done|]. split; [done|]. done. }
  unfold discovered in *.
  destruct (is_dir fs sql_dir) as [e|[|]] eqn:Hdir.
  - apply wp_try_except. rewrite (bind_inl _ _ _ e) by done. simpl.
    by apply Herr.
  - apply wp_try_except_returns, wp_bind, wp_lift. simpl negb. cbv iota.
    set (paths_found := collect_file_paths fs sql_dir ".sql") in *.
    destruct (bool_decide (paths_found.2 ≠ []) && _).
    { apply wp_ret. simpl. split; [done|]. split; [done|]. done. }
    rewrite fmap_as_posix.
    pose proof (natsorted_Permutation paths_found.1) as Hperm.
    destruct (natsorted paths_found.1) as [|p sorted] eqn:Hsorted.
    { by apply wp_ret. }
    apply wp_try_except_returns.
    set (r0 := set_file_anomalies (natsorted paths_found.2)
                 (initial_results conn)).
    apply wp_bind.
    destruct (String.eqb transaction_mode "per-file") eqn:E1;
      [|destruct (String.eqb transaction_mode "per-file-until-error") eqn:E2;
        [|destruct (String.eqb transaction_mode "all-or-nothing") eqn:E3]].
    + apply wp_bind, wp_bind.
      eapply wp_mono; [apply per_file_loop_flags|].
      intros v w1 e1 (Hf & Hcase). apply wp_ret, wp_ret, wp_bind.
      apply String.eqb_eq in E1. subst transaction_mode.
      change (String.eqb "per-file" "all-or-nothing") with false. cbv iota.
      apply wp_ret, wp_ret. simpl. rewrite Hf. simpl.
      split; [done|]. split; [done|]. intros Hfat.
      destruct Hcase as [[_ Hv]|[Hfat' _]]; [|congruence].
      split_and!; try done. apply list_elem_of_here.
    + apply wp_bind, wp_bind.
      eapply wp_mono; [apply per_file_until_error_loop_flags|].
      intros v w1 e1 (Hf & Hcase). apply wp_ret, wp_ret, wp_bind.
      apply String.eqb_eq in E2. subst transaction_mode.
      change (String.eqb "per-file-until-error" "all-or-nothing") with false.
      cbv iota.
      apply wp_ret, wp_ret. simpl. rewrite Hf. simpl.
      split; [done|]. split; [done|]. intros Hfat.
      destruct Hcase as [(_ & He & Hv)|[Hfat' _]]; [|congruence].
      split_and!; try done.
      apply list_elem_of_further, list_elem_of_here.
    + apply wp_bind.
      eapply wp_mono; [apply process_all_or_nothing_flags|].
      intros d w1 e1 (Hff & _ & _ & _ & Hok).
      apply wp_ret, wp_bind. simpl.
      apply String.eqb_eq in E3. subst transaction_mode.
      destruct (fatal_error_occurred d) eqn:Hfat; simpl.
      { apply wp_ret, wp_ret. simpl. split; [done|]. split; [done|].
        congruence. }
      destruct (Hok eq_refl) as (He & Hv & _).
      eapply wp_mono; [apply final_commit_cases|].
      intros r' w2 e2 [->| ->]; apply wp_ret; simpl.
      * rewrite Hff. split; [done|]. split; [done|]. intros _.
        split_and!; try done.
        -- do 2 apply list_elem_of_further. apply list_elem_of_here.
        -- unfold viewed. simpl. rewrite He. simpl. by rewrite <- Hv.
      * split; [done|]. split; [done|]. done.
    + apply wp_ret, wp_ret. done.
  - apply wp_try_except_returns, wp_bind, wp_lift. simpl.
    by apply wp_ret.
Qed.

(** The [try] and the [finally] block together. *)
Lemma execute_outcome c params sql_dir transaction_mode w :
  wp (execute_sql_scripts_in_dir fs (Some c) params sql_dir transaction_mode) w
    (λ out _ _,
       ∃ rep,
         let r := final_results rep in
         out.2 = Some rep
         ∧ listings rep =
             [(processed_type r, processed r);
              ("file_anomalies", file_anomalies r);
              ("errors", errors r);
              ("empty_files", empty_files r);
              ("unprocessed_files", unprocessed_files r)]
         ∧ (∀ p, p ∈ unprocessed_files r → p ∉ viewed r)
         ∧ (failed_all_or_nothing r = true →
            transaction_mode = "all-or-nothing"
            ∧ fatal_error_occurred r = true)
         ∧ match out.1 with
           | RetBool _ => True
           | RetResults r' =>
               r' = r
               ∧ (fatal_error_occurred r = false →
                  transaction_mode
                    ∈ ["per-file"; "per-file-until-error"; "all-or-nothing"]
                  ∧ discovered fs sql_dir ≠ []
                  ∧ unprocessed_files r = []
                  ∧ viewed r ≡ₚ discovered fs sql_dir
                  ∧ (transaction_mode ≠ "per-file" → errors r = []))
           end).
Proof.
  unfold execute_sql_scripts_in_dir. apply wp_bind.
  eapply wp_mono; [apply orchestrate_outcome|].
  intros [[returned r] sorted] w1 e1 [Hfailed Hret]. simpl in *.
  apply wp_bind.
  eapply wp_mono;
    [by apply (write_report_spec any closed_under_driver_True)|].
  intros rep w2 e2 (_ & Hfinal & Hlist). apply wp_ret.
  exists rep. simpl. rewrite Hlist, Hfinal. simpl.
  split; [done|]. split; [done|]. split.
  { intros p [Hp _]%list_elem_of_filter.
    by rewrite elem_of_list_to_set in Hp. }
  split; [done|].
  destruct returned as [b|r']; [done|]. simpl.
  destruct Hret as [-> Hret]. split; [done|]. intros Hfat.
  destruct (Hret Hfat) as (Hmode & Hne & Hperm & Hv & He).
  split_and!; try done.
  - intros Hnil. rewrite Hnil in Hperm.
    by apply Permutation_nil_r in Hperm.
  - apply filter_none. intros p Hp Hnot. apply Hnot.
    rewrite elem_of_list_to_set, Hv. done.
  - unfold viewed in *. simpl. by rewrite Hv.
Qed.

(** X6.  When [execute_sql_scripts_in_dir] hands back a dictionary
    that records no fatal error, the run was complete: the mode is one
    of the three, there were valid files, every one of them is in
    [processed], [errors] or [empty_files] and none is left
    unprocessed, [failed_all_or_nothing] is not set, and outside the
    per-file mode [errors] is empty. *)
Theorem nonfatal_run_complete conn params sql_dir transaction_mode w r report :
  val (execute_sql_scripts_in_dir fs conn params sql_dir transaction_mode w)
    = inr (RetResults r, report) →
  fatal_error_occurred r = false →
  transaction_mode ∈ ["per-file"; "per-file-until-error"; "all-or-nothing"]
  ∧ discovered fs sql_dir ≠ []
  ∧ unprocessed_files r = []
  ∧ processed r ++ errors r ++ empty_files r ≡ₚ discovered fs sql_dir
  ∧ failed_all_or_nothing r = false
  ∧ (transaction_mode ≠ "per-file" → errors r = []).
Proof.
  intros Hval Hfat. destruct conn as [c|]; [|done].
  pose proof (execute_outcome c params sql_dir transaction_mode w) as Hwp.
  apply wp_elim in Hwp as (out & Hout & rep & _ & _ & _ & Hfailed & Hret).
  rewrite Hval in Hout. injection Hout as <-. simpl in *.
  destruct Hret as [-> Hret].
  destruct (Hret Hfat) as (Hmode & Hne & Hun & Hv & He).
  split_and!; try done.
  destruct (failed_all_or_nothing (final_results rep)); [|done].
  destruct Hfailed as [_ Hfat']; [done|]. congruence.
Qed.



(** X9.  With a mode that is none of the three, the orchestrator
    still scans an existing directory and then does nothing with the
    database: the world is as before and there is no event.  With no
    valid file it hands back [True]; otherwise it hands back [False],
    the run is marked fatal, and the report lists every valid file, in
    natural order, as unprocessed, and the anomalies of the scan. *)
Theorem unknown_mode_runs_nothing c params sql_dir transaction_mode w :
  transaction_mode
    ∉ ["per-file"; "per-file-until-error"; "all-or-nothing"] →
  is_dir fs sql_dir = inr true →
  let run :=
    execute_sql_scripts_in_dir fs (Some c) params sql_dir transaction_mode w in
  let found := collect_file_paths fs sql_dir ".sql" in
  ∃ rep,
    let r := final_results rep in
    val run = inr (RetBool (bool_decide (found.1 = [])), Some rep)
    ∧ world run = w ∧ events run = []
    ∧ processed r = [] ∧ errors r = [] ∧ empty_files r = []
    ∧ unprocessed_files r = natsorted found.1
    ∧ file_anomalies r = natsorted found.2
    ∧ fatal_error_occurred r = bool_decide (found.1 ≠ [])
    ∧ failed_all_or_nothing r = false.
Proof.
  intros Hmode Hdir run found.
  pose (Post := λ (out : retval * option report) (w' : W) (evs : list event),
          ∃ rep,
            out = (RetBool (bool_decide (found.1 = [])), Some rep)
            ∧ w' = w ∧ evs = []
            ∧ processed (final_results rep) = []
            ∧ errors (final_results rep) = []
            ∧ empty_files (final_results rep) = []
            ∧ unprocessed_files (final_results rep) = natsorted found.1
            ∧ file_anomalies (final_results rep) = natsorted found.2
            ∧ fatal_error_occurred (final_results rep)
                = bool_decide (found.1 ≠ [])
            ∧ failed_all_or_nothing (final_results rep) = false).
  cut (wp (execute_sql_scripts_in_dir fs (Some c) params sql_dir
             transaction_mode) w Post).
  { intros Hwp. apply wp_elim in Hwp as (out & Hout & rep & -> & HP).
    exists rep. by split. }
  assert (E1 : String.eqb transaction_mode "per-file" = false).
  { apply String.eqb_neq. intros ->. apply Hmode, list_elem_of_here. }
  assert (E2 : String.eqb transaction_mode "per-file-until-error" = false).
  { apply String.eqb_neq. intros ->.
    apply Hmode, list_elem_of_further, list_elem_of_here. }
  assert (E3 : String.eqb transaction_mode "all-or-nothing" = false).
  { apply String.eqb_neq. intros ->.
    apply Hmode. do 2 apply list_elem_of_further. apply list_elem_of_here. }
  assert (Hgate : bool_decide (transaction_mode
                    ∈ ["all-or-nothing"; "per-file-until-error"]) = false).
  { apply bool_decide_eq_false_2. intros Hin. apply Hmode. set_solver. }
  unfold execute_sql_scripts_in_dir, orchestrate. apply wp_bind.
  apply wp_try_except_returns. rewrite Hdir. apply wp_bind, wp_lift.
  simpl negb. cbv iota. fold found.
  rewrite Hgate, andb_false_r, fmap_as_posix.
  destruct (natsorted found.1) as [|p sorted] eqn:Hsorted.
  - apply wp_ret, wp_bind, wp_ret, wp_ret.
    apply natsorted_nil_inv in Hsorted as Hnil.
    eexists (Report _ _). rewrite Hnil. simpl. split_and!; done.
  - apply wp_try_except_returns. rewrite E1, E2, E3.
    apply wp_bind, wp_ret, wp_ret, wp_bind, wp_ret, wp_ret.
    assert (Hne : found.1 ≠ []).
    { intros Hnil. rewrite Hnil in Hsorted. done. }
    eexists (Report _ _). simpl.
    rewrite (bool_decide_eq_false_2 _ Hne), (bool_decide_eq_true_2 _ Hne).
    split_and!; try done.
    apply filter_all. intros x _. set_solver.
Qed.


End Outcomes.

(** ** What stands behind the outcome lists *)

Section Evidence.
Context {W : Type} `{!Driver W}.
Variable fs : filesystem.

Local Abbreviation any := (λ _ : W, True).




Lemma executed_in_app_r k b evs p :
  executed_in fs k evs p → executed_in fs k (evs ++ b) p.
Proof.
  intros (s & Hr & Hb & Hin). exists s. split_and!; try done.
  rewrite elem_of_app. auto.
Qed.














End Evidence.

(** ** Runs in the simulated environment *)

Section MoreRuns.
Import Sim.

Lemma nonfatal_run_complete_witness :
  ∃ r report,
    val (execute_sql_scripts_in_dir three_files (Some 0%nat) params "d"
           "per-file" (start [] ["BAD"] [] false))
      = inr (RetResults r, report)
    ∧ fatal_error_occurred r = false
    ∧ ("per-file" ∈ ["per-file"; "per-file-until-error"; "all-or-nothing"]
       ∧ discovered three_files "d" ≠ []
       ∧ unprocessed_files r = []
       ∧ processed r ++ errors r ++ empty_files r
           ≡ₚ discovered three_files "d"
       ∧ failed_all_or_nothing r = false
       ∧ ("per-file" ≠ "per-file" → errors r = [])).
Proof.
  do 2 eexists.
  split; [vm_compute; reflexivity|]. split; [reflexivity|].
  eapply (nonfatal_run_complete three_files (Some 0%nat) params "d"
            "per-file" (start [] ["BAD"] [] false)).
  - vm_compute. reflexivity.
  - reflexivity.
Defined.

Lemma unknown_mode_runs_nothing_witness :
  ("sequential" ∉ ["per-file"; "per-file-until-error"; "all-or-nothing"])
  ∧ is_dir three_files "d" = inr true
  ∧ ∃ rep,
      val (execute_sql_scripts_in_dir three_files (Some 0%nat) params "d"
             "sequential" (start [] [] [] false))
        = inr (RetBool false, Some rep)
      ∧ unprocessed_files (final_results rep)
          = ["d/1.sql"; "d/2.sql"; "d/10.sql"]
      ∧ fatal_error_occurred (final_results rep) = true.
Proof.
  assert (Hmode : "sequential"
                    ∉ ["per-file"; "per-file-until-error"; "all-or-nothing"]).
  { apply (bool_decide_unpack _). vm_compute. exact I. }
  assert (Hdir : is_dir three_files "d" = inr true) by reflexivity.
  split; [exact Hmode|]. split; [exact Hdir|].
  destruct (unknown_mode_runs_nothing three_files 0%nat params "d"
              "sequential" (start [] [] [] false) Hmode Hdir)
    as (rep & Hval & _ & _ & _ & _ & _ & Hun & _ & Hfat & _).
  exists rep. split; [exact Hval|]. split; [exact Hun|exact Hfat].
Defined.


End MoreRuns.
